(** * pmtproc: passive GiveSendGo payment-processor monitor

    A shallow embedding of [pmtproc.py] and the properties of its slug
    normalisation, registrable-domain reduction, report builder, HAR path
    derivation, stop signal and exit status.

    Python [str] values are modelled as [string]: sequences of the code
    points U+0000..U+00FF (one [ascii] per code point).  On that range
    [str.lower], [str.isspace] and the [re.I] matching of ASCII pattern
    letters are the functions written out below. *)

From Stdlib Require Import String Ascii List Bool Arith Lia NArith ZArith.
From Stdlib Require Import Permutation Sorted.
Import ListNotations.
Open Scope list_scope.
Open Scope string_scope.

(** ** Python string primitives *)

(** Code points with a distinct lowercase form: A-Z, U+00C0-U+00D6 and
    U+00D8-U+00DE. *)
Definition is_upper (c : ascii) : bool :=
  let n := N_of_ascii c in
  ((65 <=? n) && (n <=? 90) || (192 <=? n) && (n <=? 214)
   || (216 <=? n) && (n <=? 222))%N.

Definition lower_char (c : ascii) : ascii :=
  if is_upper c then ascii_of_N (N_of_ascii c + 32) else c.

(** [str.lower()] *)
Fixpoint lower (s : string) : string :=
  match s with
  | "" => ""
  | String c r => String (lower_char c) (lower r)
  end.

(** [c in chars] *)
Fixpoint mem_char (c : ascii) (chars : string) : bool :=
  match chars with
  | "" => false
  | String d r => (c =? d)%char || mem_char c r
  end.

(** Drop the longest prefix whose characters all satisfy [p]. *)
Fixpoint lstrip_by (p : ascii -> bool) (s : string) : string :=
  match s with
  | "" => ""
  | String c r => if p c then lstrip_by p r else s
  end.

(** Drop the longest suffix whose characters all satisfy [p]. *)
Fixpoint rstrip_by (p : ascii -> bool) (s : string) : string :=
  match s with
  | "" => ""
  | String c r =>
      match rstrip_by p r with
      | "" => if p c then "" else String c ""
      | r' => String c r'
      end
  end.

(** [s.lstrip(chars)]: [chars] is a set of characters, not a prefix. *)
Definition lstrip (chars s : string) : string :=
  lstrip_by (fun c => mem_char c chars) s.

(** [str.isspace] on one code point: TAB..CR, FS..US, SPACE, NEL, NBSP. *)
Definition is_space (c : ascii) : bool :=
  let n := N_of_ascii c in
  ((9 <=? n) && (n <=? 13) || (28 <=? n) && (n <=? 32)
   || (n =? 133) || (n =? 160))%N.

(** [s.strip()] *)
Definition strip (s : string) : string :=
  rstrip_by is_space (lstrip_by is_space s).

(** [s.split(sep)] for a one-character separator; never the empty list. *)
Fixpoint split (sep : ascii) (s : string) : list string :=
  match s with
  | "" => [""]
  | String c r =>
      if (c =? sep)%char then "" :: split sep r
      else match split sep r with
           | [] => [String c ""]
           | p :: ps => String c p :: ps
           end
  end.

(** [sep.join(parts)] *)
Fixpoint join (sep : string) (parts : list string) : string :=
  match parts with
  | [] => ""
  | [p] => p
  | p :: ps => p ++ sep ++ join sep ps
  end.

(** [l[-n:]] for [n > 0] *)
Definition slice_last {A : Type} (n : nat) (l : list A) : list A :=
  skipn (length l - n) l.

(** [s.startswith(prefix)] *)
Definition startswith (s pre : string) : bool := String.prefix pre s.

(** Truth value of a [str]: non-empty. *)
Definition truthy (s : string) : bool :=
  match s with "" => false | _ => true end.

(** Every character of [s] satisfies [p]. *)
Fixpoint all_chars (p : ascii -> bool) (s : string) : bool :=
  match s with
  | "" => true
  | String c r => p c && all_chars p r
  end.

(** ** reg_domain *)

(** The fields of a [tldextract] result that the code reads. *)
Record ExtractResult : Type := mkExtract {
  domain : string;
  suffix : string
}.

(** [_tx]: [None] when the import of [tldextract] failed. *)
Definition resolver : Type := option (string -> ExtractResult).

Definition reg_domain (_tx : resolver) (netloc : string) : string :=
  let netloc := lstrip "www." (lower netloc) in
  let naive :=
    let parts := split "." netloc in
    if (2 <=? length parts)%nat then join "." (slice_last 2 parts) else netloc in
  match _tx with
  | Some tx =>
      let t := tx netloc in
      if truthy (domain t) && truthy (suffix t)
      then domain t ++ "." ++ suffix t
      else naive
  | None => naive
  end.

(** Follows the spec's words for [registrable_domain] without the
    public-suffix dataset: remove a leading "www." label, then keep the
    last two dot-separated labels. *)
Definition strip_www_label (host : string) : string :=
  if startswith host "www." then substring 4 (String.length host - 4) host else host.

Definition spec_registrable_domain (host : string) : string :=
  let h := strip_www_label host in
  let parts := split "." h in
  if (2 <=? length parts)%nat then join "." (slice_last 2 parts) else h.

(** No character of [s] has a distinct lowercase form. *)
Definition is_lowercase (s : string) : bool :=
  all_chars (fun c => negb (is_upper c)) s.

(** [s] begins with the character [c]. *)
Definition begins_with (c : ascii) (s : string) : bool :=
  match s with
  | "" => false
  | String d _ => (d =? c)%char
  end.

(** The resolver, when there is one, answers lowercase hosts in
    lowercase: it cuts its answer out of the host it is given. *)
Definition keeps_lowercase (tx : resolver) : Prop :=
  match tx with
  | None => True
  | Some f =>
      forall h, is_lowercase h = true ->
        is_lowercase (domain (f h)) = true /\
        is_lowercase (suffix (f h)) = true
  end.

(** No resolver, or one that finds no domain or no suffix in [h]. *)
Definition unresolved (tx : resolver) (h : string) : Prop :=
  match tx with
  | None => True
  | Some f => truthy (domain (f h)) && truthy (suffix (f h)) = false
  end.

(** ** extract_slug *)

(** The literal part of [r"givesendgo\.com/([^/?#]+)"]. *)
Definition SLUG_LITERAL : string := "givesendgo.com/".

(** One pattern character against one subject character under [re.I]. *)
Definition eqb_ci_char (a c : ascii) : bool :=
  (lower_char a =? lower_char c)%char.

(** Match the literal [lit] at the start of [s], ignoring case; the
    result is what follows it. *)
Fixpoint match_literal_ci (lit s : string) : option string :=
  match lit with
  | "" => Some s
  | String a lit' =>
      match s with
      | "" => None
      | String c s' =>
          if eqb_ci_char a c then match_literal_ci lit' s' else None
      end
  end.

(** The class [[^/?#]]. *)
Definition is_delim (c : ascii) : bool := mem_char c "/?#".

(** Greedy [[^/?#]*]: the longest run of class characters. *)
Fixpoint take_class (s : string) : string :=
  match s with
  | "" => ""
  | String c r => if is_delim c then "" else String c (take_class r)
  end.

(** The pattern anchored at the start of [s]; the result is group 1.  The
    group is the last item of the pattern, so the greedy run is the
    match and [+] asks for it to be non-empty. *)
Definition match_slug_at (s : string) : option string :=
  match match_literal_ci SLUG_LITERAL s with
  | Some rest =>
      match take_class rest with
      | "" => None
      | g => Some g
      end
  | None => None
  end.

(** [re.search]: the leftmost position where the pattern matches. *)
Fixpoint re_search_slug (s : string) : option string :=
  match match_slug_at s with
  | Some g => Some g
  | None =>
      match s with
      | "" => None
      | String _ r => re_search_slug r
      end
  end.

Definition extract_slug (target : string) : string :=
  match re_search_slug target with
  | Some g => g
  | None => strip target
  end.

(** Two strings equal up to letter case. *)
Definition eqb_ci (a b : string) : bool := (lower a =? lower b)%string.

(** [s] contains the literal (in any case) followed by a character of
    the class, i.e. the pattern matches somewhere in [s]. *)
Definition contains_slug_pattern (s : string) : Prop :=
  exists p l c q,
    s = p ++ l ++ String c q /\ eqb_ci l SLUG_LITERAL = true /\
    is_delim c = false.

(** [rest] is empty or begins with one of '/', '?', '#'. *)
Definition ends_segment (rest : string) : Prop :=
  match rest with
  | "" => True
  | String c _ => is_delim c = true
  end.

(** No occurrence of the literal (in any case) starts before offset [n]
    of [s]. *)
Definition no_occurrence_before (n : nat) (s : string) : Prop :=
  forall p l q,
    s = p ++ l ++ q -> eqb_ci l SLUG_LITERAL = true -> n <= String.length p.

(** Decides [no_occurrence_before] by looking at the first [n] offsets. *)
Fixpoint occurs_before (n : nat) (s : string) : bool :=
  match n with
  | 0 => false
  | S n' =>
      match match_literal_ci SLUG_LITERAL s with
      | Some _ => true
      | None =>
          match s with
          | "" => false
          | String _ r => occurs_before n' r
          end
      end
  end.

(** ** HAR path *)

(** A [PurePosixPath]: its root ("", "/" or "//") and its components. *)
Record PurePath : Type := mkPath {
  root : string;
  parts : list string
}.

Definition parse_root (s : string) : string :=
  match s with
  | String "/" (String "/" (String "/" _)) => "/"
  | String "/" (String "/" _) => "//"
  | String "/" _ => "/"
  | _ => ""
  end.

(** [Path(s)]: empty and "." components are dropped, ".." is kept. *)
Definition parse_path (s : string) : PurePath :=
  {| root := parse_root s;
     parts := filter (fun p => negb (p =? "") && negb (p =? "."))
                     (split "/" s) |}.

(** [p / s] *)
Definition joinpath (p : PurePath) (s : string) : PurePath :=
  let q := parse_path s in
  if truthy (root q) then q
  else {| root := root p; parts := parts p ++ parts q |}.

(** [p.parent] *)
Definition parent (p : PurePath) : PurePath :=
  {| root := root p; parts := removelast (parts p) |}.

Definition HAR_DIR : PurePath := parse_path "/home/chris/openpilot/tools/bin".

(** [f"pmtproc_{slug}_monitor.har"] *)
Definition har_file_name (slug : string) : string :=
  "pmtproc_" ++ slug ++ "_monitor.har".

Definition har_path (slug : string) : PurePath :=
  joinpath HAR_DIR (har_file_name slug).

(** ** Report builder *)

(** [sorted]: a stable sort; [le x y] means [x] may stand before [y]. *)
Fixpoint insert_sorted {A : Type} (le : A -> A -> bool) (x : A) (l : list A)
  : list A :=
  match l with
  | [] => [x]
  | y :: r => if le x y then x :: l else y :: insert_sorted le x r
  end.

Fixpoint sorted {A : Type} (le : A -> A -> bool) (l : list A) : list A :=
  match l with
  | [] => []
  | x :: r => insert_sorted le x (sorted le r)
  end.

(** The distinct elements of [l], each at its first occurrence. *)
Fixpoint distinct (l : list string) : list string :=
  match l with
  | [] => []
  | x :: r => x :: filter (fun y => negb (y =? x)) (distinct r)
  end.

(** [{u for u in l}]: a set holds each element once; its iteration order
    is fixed here to first occurrence, and [sorted] makes the choice
    immaterial. *)
Definition set_of (l : list string) : list string := distinct l.

(** [Counter]: keys in insertion order with their counts. *)
Definition counter : Type := list (string * nat).

(** [c[d] += 1] *)
Fixpoint counter_add (d : string) (c : counter) : counter :=
  match c with
  | [] => [(d, 1)]
  | (k, n) :: r =>
      if (k =? d)%string then (k, S n) :: r else (k, n) :: counter_add d r
  end.

(** [Counter(l)] *)
Definition Counter (l : list string) : counter :=
  fold_left (fun c d => counter_add d c) l [].

(** [c.most_common()]: [sorted(c.items(), key=itemgetter(1), reverse=True)] *)
Definition most_common (c : counter) : counter :=
  sorted (fun a b => (snd b <=? snd a)%nat) c.

Section Report.

(** [_tx] and [urlparse(u).netloc], both from outside this file. *)
Variable _tx : resolver.
Variable netloc_of : string -> string.

Definition unique_urls (matched_urls : list string) : list string :=
  sorted String.leb
    (set_of (filter (fun u => startswith u "http") matched_urls)).

Definition domains (matched_urls : list string) : list string :=
  map (fun u => reg_domain _tx (netloc_of u))
      (filter (fun u => truthy (netloc_of u)) (unique_urls matched_urls)).

Definition domain_counts (matched_urls : list string) : counter :=
  Counter (domains matched_urls).

End Report.

(** ** kill_stale_chromium *)

(** The command-line fragments that identify a stray browser. *)
Definition REAP_PATTERNS : list string :=
  ["chrome.*--remote-debugging-pipe"; "playwright.*chromium"].

(** [pat in s] *)
Fixpoint contains (pat s : string) : bool :=
  if String.prefix pat s then true
  else match s with
       | "" => false
       | String _ r => contains pat r
       end.

(** The line boundaries of [str.splitlines]: LF, VT, FF, CR, FS, GS, RS
    and NEL. *)
Definition is_linebreak (c : ascii) : bool :=
  let n := N_of_ascii c in
  ((10 <=? n) && (n <=? 13) || (28 <=? n) && (n <=? 30) || (n =? 133))%N.

(** [s.splitlines()]: CR LF ends one line, and a boundary at the end of
    the text opens no further line. *)
Fixpoint splitlines (s : string) : list string :=
  match s with
  | "" => []
  | String c r =>
      if (c =? "013")%char && begins_with "010" r then splitlines r
      else if is_linebreak c then "" :: splitlines r
      else match splitlines r with
           | [] => [String c ""]
           | l :: ls => String c l :: ls
           end
  end.

(** The longest prefix whose characters all satisfy [p]. *)
Fixpoint take_by (p : ascii -> bool) (s : string) : string :=
  match s with
  | "" => ""
  | String c r => if p c then String c (take_by p r) else ""
  end.

(** [line.split(None, 1)[0]]: the first run of characters that are not
    blanks; [None] stands for the IndexError on a line of blanks. *)
Definition first_token (line : string) : option string :=
  match lstrip_by is_space line with
  | "" => None
  | t => Some (take_by (fun c => negb (is_space c)) t)
  end.

Definition is_digit (c : ascii) : bool :=
  let n := N_of_ascii c in ((48 <=? n) && (n <=? 57))%N.

Definition digit_value (c : ascii) : Z := Z.of_N (N_of_ascii c - 48).

(** Digits, with single underscores between them, after a first digit. *)
Fixpoint int_digits (acc : Z) (after_underscore : bool) (s : string)
  : option Z :=
  match s with
  | "" => if after_underscore then None else Some acc
  | String c r =>
      if is_digit c then int_digits (10 * acc + digit_value c) false r
      else if (c =? "_")%char && negb after_underscore
           then int_digits acc true r
           else None
  end.

Definition int_unsigned (s : string) : option Z :=
  match s with
  | "" => None
  | String c r => if is_digit c then int_digits (digit_value c) false r
                  else None
  end.

(** [int(tok)] for a token without blanks; [None] stands for the
    ValueError. *)
Definition py_int (tok : string) : option Z :=
  match tok with
  | String "+" r => int_unsigned r
  | String "-" r => option_map Z.opp (int_unsigned r)
  | _ => int_unsigned tok
  end.

(** What the function asks of the system. *)
Inductive Action : Type :=
| Pkill (pat : string)   (* pkill -9 -f pat *)
| Ps                     (* ps -eo pid,cmd *)
| Kill (pid : Z).        (* os.kill(pid, SIGKILL) *)

(** The exceptions that the function does not catch. *)
Inductive ReapExc : Type :=
| IndexError             (* [0] of an empty split *)
| KillError (pid : Z).   (* os.kill raising anything but the two errors
                            that are caught *)

(** The system as the function meets it, for each pattern: whether
    [pkill] is found, what [ps] prints ([None]: it raised), and for which
    pids [os.kill] raises an exception that is not caught. *)
Record Os : Type := mkOs {
  pkill_found : string -> bool;
  ps_output : string -> option string;
  kill_uncaught : Z -> bool
}.

(** [for line in lines: if pat in line: ...] *)
Fixpoint kill_lines (os : Os) (pat : string) (lines : list string)
  : list Action * option ReapExc :=
  match lines with
  | [] => ([], None)
  | line :: r =>
      if contains pat line then
        match first_token line with
        | None => ([], Some IndexError)
        | Some tok =>
            match py_int tok with
            | None => kill_lines os pat r
            | Some pid =>
                if kill_uncaught os pid then ([Kill pid], Some (KillError pid))
                else let (acts, e) := kill_lines os pat r in
                     (Kill pid :: acts, e)
            end
        end
      else kill_lines os pat r
  end.

(** The body of the loop over the patterns. *)
Definition reap_pattern (os : Os) (pat : string)
  : list Action * option ReapExc :=
  if pkill_found os pat then ([Pkill pat], None)
  else
    match ps_output os pat with
    | None => ([Pkill pat; Ps], None)
    | Some procs =>
        let (acts, e) := kill_lines os pat (splitlines procs) in
        (Pkill pat :: Ps :: acts, e)
    end.

Fixpoint reap_patterns (os : Os) (pats : list string)
  : list Action * option ReapExc :=
  match pats with
  | [] => ([], None)
  | pat :: r =>
      match reap_pattern os pat with
      | (acts, Some e) => (acts, Some e)
      | (acts, None) =>
          let (acts', e) := reap_patterns os r in ((acts ++ acts')%list, e)
      end
  end.

Definition kill_stale_chromium (os : Os) : list Action * option ReapExc :=
  reap_patterns os REAP_PATTERNS.

Definition is_kill (a : Action) : bool :=
  match a with Kill _ => true | _ => false end.

(** ** Capture session and [main] *)

(** The run is modelled from the side of [main].  What the browser and
    the operator do reaches it as a sequence of events, handed one at a
    time to the listeners that [main] registers; the operator's interrupt
    is felt in the waiting loop and is ignored during the shutdown
    sequence.  Of the calls that the source does not guard, the two of
    [kill_stale_chromium] and the one of [urlparse] can raise, and the
    run then ends with a traceback; starting Playwright, launching the
    browser and [tldextract] return normally.  The HAR file is written by
    the browser: the model is told whether it exists once the browser is
    gone, and which URLs the fallback scan draws from it before it ends
    or raises. *)

(** What [print] writes to standard output, one constructor per call. *)
Inductive Msg : Type :=
| Usage                                   (* "Usage: pmtproc.py <slug|url>" *)
| InfoHarPath (p : PurePath)              (* "[info] HAR will be saved to: ..." *)
| DebugDisconnected                       (* "[debug] Browser disconnected event." *)
| DebugPageClosed                         (* "[debug] Page closed - flushing HAR" *)
| InfoOpening (url : string)              (* "[info] Opening ..." *)
| ErrorLoad (e : string)                  (* "[error] Couldn't load page: ..." *)
| InfoLoaded                              (* "[info] Page loaded. ..." *)
| InfoReady                               (* "[info] Window is ready ..." *)
| WarnCtrlC                               (* "[warn] CTRL-C detected ..." *)
| InfoFlushing                            (* "[info] Flushing HAR and cleaning up" *)
| InfoHarWritten (p : PurePath) (size : nat)
| ErrorHarMissing (p : PurePath)
| WarnHarParse (e : string)               (* "[warn] Could not parse HAR ..." *)
| DomainsHeader                           (* "== Payment-processor domains detected ==" *)
| DomainLine (dom : string) (cnt : nat) (plural : bool)
| UrlsHeader                              (* "== Matching request URLs ==" *)
| UrlLine (u : string)
| NoMatches.                              (* "No matching payment URLs captured. ..." *)

(** What the browser and the operator do while the session runs. *)
Inductive Event : Type :=
| Request (url : string)   (* the page issues a request *)
| PageClose                (* the page reports "close" *)
| BrowserDisconnected      (* the browser reports "disconnected" *)
| KeyboardInterrupt        (* the operator hits CTRL-C *)
| Timeout.                 (* a 0.2 s wait elapses *)

(** The variables of [main] that its closures share. *)
Record Session : Type := mkSession {
  stop_event : bool;            (* threading.Event *)
  matched_urls : list string;
  ctx_close_calls : nat;        (* calls of ctx.close() *)
  stdout : list Msg
}.

Definition print (m : Msg) (st : Session) : Session :=
  {| stop_event := stop_event st; matched_urls := matched_urls st;
     ctx_close_calls := ctx_close_calls st; stdout := stdout st ++ [m] |}.

(** [stop_event.set()] *)
Definition stop_event_set (st : Session) : Session :=
  {| stop_event := true; matched_urls := matched_urls st;
     ctx_close_calls := ctx_close_calls st; stdout := stdout st |}.

(** [matched_urls.append(u)] *)
Definition matched_append (u : string) (st : Session) : Session :=
  {| stop_event := stop_event st; matched_urls := matched_urls st ++ [u];
     ctx_close_calls := ctx_close_calls st; stdout := stdout st |}.

(** [ctx.close()] inside [try ... except Exception: pass]. *)
Definition safe_close_context (st : Session) : Session :=
  {| stop_event := stop_event st; matched_urls := matched_urls st;
     ctx_close_calls := S (ctx_close_calls st); stdout := stdout st |}.

(** [s] contains [lit] in any letter case. *)
Fixpoint contains_ci (lit s : string) : bool :=
  match match_literal_ci lit s with
  | Some _ => true
  | None =>
      match s with
      | "" => false
      | String _ r => contains_ci lit r
      end
  end.

(** The alternatives of [PAYMENT_RE]; [braintreepayments?\.com] is
    written as its two expansions. *)
Definition PAYMENT_LITERALS : list string :=
  [ "stripe.com"; "js.stripe.com"; "api.stripe.com"; "m.stripe.network";
    "paypal.com"; "paypalobjects.com"; "braintreepayment.com";
    "braintreepayments.com"; "adyen.com"; "checkout.adyen.com";
    "squareup.com"; "cash.app"; "authorize.net"; "cybersource"; "worldpay";
    "worldpaygateway"; "globalpay"; "globalpayments"; "firstdata"; "fiserv";
    "payeezy"; "klarna"; "afterpay"; "affirm"; "2checkout"; "verifone";
    "checkout.com"; "amazonpay"; "payments.amazon"; "amazon.com/ap";
    "payoneer"; "bluepay"; "bluesnap"; "payline"; "chasepaymentech";
    "ingenico"; "trustly"; "rapyd"; "payu"; "razorpay"; "mollie"; "bolt.com";
    "pay.google"; "googleapis.com/payments"; "apple-pay";
    "apple.com/apple-pay"; "shopify-payments"; "shopify"; "payment";
    "checkout"; "card" ].

(** [PAYMENT_RE.search(url)] as a truth value. *)
Definition PAYMENT_RE_search (url : string) : bool :=
  existsb (fun lit => contains_ci lit url) PAYMENT_LITERALS.

Definition capture_request (url : string) (st : Session) : Session :=
  if PAYMENT_RE_search url then matched_append url st else st.

Definition _on_browser_disconnected (st : Session) : Session :=
  stop_event_set (print DebugDisconnected st).

Definition _on_page_close (st : Session) : Session :=
  stop_event_set (safe_close_context (print DebugPageClosed st)).

(** The listeners registered with [page.on] and [browser.on]. *)
Definition dispatch (e : Event) (st : Session) : Session :=
  match e with
  | Request url => capture_request url st
  | PageClose => _on_page_close st
  | BrowserDisconnected => _on_browser_disconnected st
  | KeyboardInterrupt => st
  | Timeout => st
  end.

(** [while not stop_event.wait(timeout=0.2): pass] inside
    [try ... except KeyboardInterrupt].  The result is the session when
    the loop is left and the events not yet consumed; [None] when the
    events run out with the flag still clear, the loop then waits on. *)
Fixpoint wait_loop (evs : list Event) (st : Session)
  : option (Session * list Event) :=
  if stop_event st then Some (st, evs)
  else
    match evs with
    | [] => None
    | KeyboardInterrupt :: r => Some (print WarnCtrlC st, r)
    | e :: r => wait_loop r (dispatch e st)
    end.

(** The shutdown sequence: SIGINT is ignored while it runs, the listeners
    still hear what the browser reports until it is gone. *)
Definition teardown (evs : list Event) (st : Session) : Session :=
  let st := print InfoFlushing st in
  let st := safe_close_context st in
  fold_left (fun s e => dispatch e s) evs st.

(** Everything outside the program that a run depends on. *)
Record World : Type := mkWorld {
  argv : list string;                 (* sys.argv *)
  goto_error : option string;         (* the PWError of page.goto, if any *)
  events : list Event;
  har_file : option nat;              (* size of the HAR file once the
                                          browser is gone; None: no file *)
  har_scan_urls : list string;        (* what the fallback scan of the HAR
                                          appends to matched_urls *)
  har_scan_error : option string;     (* the exception ending the scan *)
  _tx : resolver;
  netloc_of : string -> string;       (* urlparse(u).netloc *)
  urlparse_raises : string -> bool;   (* urlparse(u) raises ValueError *)
  os_before : Os;                     (* the system at the first call of
                                          kill_stale_chromium() *)
  os_after : Os                       (* and at the second *)
}.

Definition har_exists (w : World) : bool :=
  match har_file w with Some _ => true | None => false end.

Definition initial_session : Session :=
  {| stop_event := false; matched_urls := []; ctx_close_calls := 0;
     stdout := [] |}.

Definition target_url (slug : string) : string :=
  "https://www.givesendgo.com/" ++ slug.

(** From the start of [main] to the end of the shutdown sequence. *)
Definition run_session (w : World) (slug : string) : option Session :=
  let st := print (InfoHarPath (har_path slug)) initial_session in
  let st := print (InfoOpening (target_url slug)) st in
  match goto_error w with
  | Some e => Some (teardown (events w) (print (ErrorLoad e) st))
  | None =>
      let st := print InfoReady (print InfoLoaded st) in
      match wait_loop (events w) st with
      | Some (st, rest) => Some (teardown rest st)
      | None => None
      end
  end.


(** A system on which [pkill] is found and [os.kill] raises nothing
    that goes uncaught. *)
Definition quiet_os : Os :=
  {| pkill_found := fun _ => true;
     ps_output := fun _ => None;
     kill_uncaught := fun _ => false |}.

(** The operator completes a checkout that loads Stripe's script, then
    closes the window. *)
Definition world_stripe_checkout : World :=
  {| argv := ["pmtproc.py"; "https://www.givesendgo.com/help-anna"];
     goto_error := None;
     events := [Request "https://js.stripe.com/v3"; Timeout; PageClose;
                BrowserDisconnected];
     har_file := Some 2048;
     har_scan_urls := ["https://js.stripe.com/v3"];
     har_scan_error := None;
     _tx := None;
     netloc_of := fun _ => "js.stripe.com";
     urlparse_raises := fun _ => false;
     os_before := quiet_os;
     os_after := quiet_os |}.

(** A response header sends the browser to a URL with a stray ']', on
    which [urlparse] raises "Invalid IPv6 URL". *)
Definition world_unparsable_url : World :=
  {| argv := ["pmtproc.py"; "help-anna"];
     goto_error := None;
     events := [Timeout; PageClose];
     har_file := Some 2048;
     har_scan_urls := ["https://checkout.stripe.com]"];
     har_scan_error := None;
     _tx := None;
     netloc_of := fun _ => "";
     urlparse_raises := fun u => (u =? "https://checkout.stripe.com]")%string;
     os_before := quiet_os;
     os_after := quiet_os |}.


(** The line that opens the shutdown sequence. *)
Definition is_flushing (m : Msg) : bool :=
  match m with InfoFlushing => true | _ => false end.

(** The lines of the report and the no-match notice. *)
Definition is_report_line (m : Msg) : bool :=
  match m with
  | DomainsHeader | DomainLine _ _ _ | UrlsHeader | UrlLine _ | NoMatches =>
      true
  | _ => false
  end.

(** How often the shutdown sequence was announced. *)
Definition flushings (st : Session) : nat :=
  length (filter is_flushing (stdout st)).

(** The fallback scan of the HAR file. *)
Definition scan_har (w : World) (st : Session) : Session :=
  if har_exists w then
    let st := fold_left (fun s u => matched_append u s) (har_scan_urls w) st in
    match har_scan_error w with
    | Some e => print (WarnHarParse e) st
    | None => st
    end
  else st.

Definition print_all (ms : list Msg) (st : Session) : Session :=
  fold_left (fun s m => print m s) ms st.

(** The lines of the report when [matched_urls] is not empty. *)
Definition report (w : World) (matched : list string) : list Msg :=
  [DomainsHeader]
  ++ map (fun e => DomainLine (fst e) (snd e) (negb (snd e =? 1)%nat))
         (most_common (domain_counts (_tx w) (netloc_of w) matched))
  ++ [UrlsHeader]
  ++ map UrlLine (unique_urls matched).

(** What a run that reaches [sys.exit] leaves behind. *)
Record Outcome : Type := mkOutcome {
  output : list Msg;
  exit_code : nat
}.

(** The exceptions that nothing in [main] catches. *)
Inductive Uncaught : Type :=
| ReapError (e : ReapExc)   (* out of kill_stale_chromium() *)
| ValueError (u : string).  (* out of urlparse(u) *)

(** How a run ends: through [sys.exit], or with the traceback of an
    uncaught exception after what was printed until then. *)
Inductive Ending : Type :=
| SysExit (o : Outcome)
| Traceback (e : Uncaught) (printed : list Msg).

(** The exit status of the process: the interpreter leaves with 1 after
    an uncaught exception. *)
Definition exit_status (e : Ending) : nat :=
  match e with
  | SysExit o => exit_code o
  | Traceback _ _ => 1
  end.

Definition main (w : World) : option Ending :=
  if (length (argv w) <? 2)%nat then
    Some (SysExit {| output := [Usage]; exit_code := 1 |})
  else
    let slug := extract_slug (nth 1 (argv w) "") in
    match snd (kill_stale_chromium (os_before w)) with
    | Some e => Some (Traceback (ReapError e) [InfoHarPath (har_path slug)])
    | None =>
        match run_session w slug with
        | None => None
        | Some st =>
            match snd (kill_stale_chromium (os_after w)) with
            | Some e => Some (Traceback (ReapError e) (stdout st))
            | None =>
                let st :=
                  match har_file w with
                  | Some size =>
                      print (InfoHarWritten (har_path slug) size) st
                  | None => print (ErrorHarMissing (har_path slug)) st
                  end in
                let st := scan_har w st in
                match matched_urls st with
                | _ :: _ =>
                    match find (urlparse_raises w)
                               (unique_urls (matched_urls st)) with
                    | Some u => Some (Traceback (ValueError u) (stdout st))
                    | None =>
                        let st := print_all (report w (matched_urls st)) st in
                        Some (SysExit
                                {| output := stdout st;
                                   exit_code :=
                                     if har_exists w then 0 else 1 |})
                    end
                | [] =>
                    let st := print NoMatches st in
                    Some (SysExit
                            {| output := stdout st;
                               exit_code := if har_exists w then 0 else 1 |})
                end
            end
        end
    end.

(** ** Further definitions *)

(** The alternatives of [PAYMENT_RE] that hold no other alternative. *)
Definition PAYMENT_CORE : list string :=
  [ "stripe.com"; "m.stripe.network"; "paypal.com"; "paypalobjects.com";
    "adyen.com"; "squareup.com"; "cash.app"; "authorize.net"; "cybersource";
    "worldpay"; "globalpay"; "firstdata"; "fiserv"; "payeezy"; "klarna";
    "afterpay"; "affirm"; "verifone"; "amazonpay"; "amazon.com/ap";
    "payoneer"; "bluepay"; "bluesnap"; "payline"; "ingenico"; "trustly";
    "rapyd"; "payu"; "razorpay"; "mollie"; "bolt.com"; "pay.google";
    "apple-pay"; "shopify"; "payment"; "checkout"; "card" ].

(** The URLs of the requests among the events, in order. *)
Fixpoint request_urls (evs : list Event) : list string :=
  match evs with
  | [] => []
  | Request url :: r => url :: request_urls r
  | _ :: r => request_urls r
  end.

(** What [matched_urls] holds when the report is built: the matching
    live requests, then what the scan of the HAR file added. *)
Definition final_matched (w : World) : list string :=
  (filter PAYMENT_RE_search (request_urls (events w))
   ++ (if har_exists w then har_scan_urls w else []))%list.

(** ** The fallback scan of the HAR file *)

(** The character class of [URL_RE]: anything but a blank, a single or
    double quote, a semicolon or a comma. *)
Definition is_url_char (c : ascii) : bool :=
  negb (is_space c || (c =? "'")%char || (c =? "034")%char
        || (c =? ";")%char || (c =? ",")%char).

(** The longest run of characters of the class. *)
Fixpoint take_url_chars (s : string) : string :=
  match s with
  | "" => ""
  | String c r => if is_url_char c then String c (take_url_chars r) else ""
  end.

(** One way through [https?://]: the literal [lit], then a non-empty run
    of the class; the result is the text matched. *)
Definition match_url_with (lit s : string) : option string :=
  match match_literal_ci lit s with
  | Some t =>
      match take_url_chars t with
      | "" => None
      | run => Some (substring 0 (String.length lit + String.length run) s)
      end
  | None => None
  end.

(** [URL_RE] anchored at the start of [s]: with the optional 's' first,
    without it on failure. *)
Definition match_url_at (s : string) : option string :=
  match match_url_with "https://" s with
  | Some m => Some m
  | None => match_url_with "http://" s
  end.

(** The scan of [findall]: [skip] characters of the last match are still
    to be passed over; then a match is tried at each position. *)
Fixpoint findall_from (skip : nat) (s : string) : list string :=
  match s with
  | "" => []
  | String _ r =>
      match skip with
      | S k => findall_from k r
      | 0 =>
          match match_url_at s with
          | Some m => m :: findall_from (String.length m - 1) r
          | None => findall_from 0 r
          end
      end
  end.

(** [URL_RE.findall(s)] *)
Definition URL_RE_findall (s : string) : list string := findall_from 0 s.

(** What [json.load] returns; a [dict] holds each key once. *)
#[local] Set Warnings "-register-all".
Inductive json : Type :=
| JNull
| JBool (b : bool)
| JNum
| JStr (s : string)
| JArr (items : list json)
| JObj (members : list (string * json)).

(** The exceptions that the scan can meet in a parsed document. *)
Inductive PyExc : Type :=
| AttributeError   (* [.get] on something that is no dict *)
| TypeError.       (* iterating or searching something unfit *)

(** A computation that appends to [matched_urls] and may raise: what it
    appended, and its exception or its value. *)
Definition Scan (A : Type) : Type := list string * (PyExc + A).

Definition ret {A : Type} (a : A) : Scan A := ([], inr a).

Definition raise {A : Type} (e : PyExc) : Scan A := ([], inl e).

Definition bind {A B : Type} (m : Scan A) (k : A -> Scan B) : Scan B :=
  match m with
  | (us, inl e) => (us, inl e)
  | (us, inr a) => let (us', r) := k a in ((us ++ us')%list, r)
  end.

(** [matched_urls.append(u)] for each [u] of [us]. *)
Definition append_all (us : list string) : Scan unit := (us, inr tt).

(** [for x in l: body(x)] *)
Fixpoint for_each {A : Type} (body : A -> Scan unit) (l : list A)
  : Scan unit :=
  match l with
  | [] => ret tt
  | x :: r => bind (body x) (fun _ => for_each body r)
  end.

Fixpoint lookup (key : string) (members : list (string * json))
  : option json :=
  match members with
  | [] => None
  | (k, v) :: r => if (k =? key)%string then Some v else lookup key r
  end.

(** [v.get(key, default)] *)
Definition py_get (v : json) (key : string) (default : json) : Scan json :=
  match v with
  | JObj members =>
      ret (match lookup key members with Some x => x | None => default end)
  | _ => raise AttributeError
  end.

(** The items that [for x in v] walks through: the elements of a list,
    the keys of a dict, the characters of a string. *)
Definition py_iter (v : json) : Scan (list json) :=
  match v with
  | JArr items => ret items
  | JObj members => ret (map (fun kv => JStr (fst kv)) members)
  | JStr s => ret (map (fun c => JStr (String c "")) (list_ascii_of_string s))
  | _ => raise TypeError
  end.

(** The argument of [search] and [findall] has to be a string. *)
Definition py_str (v : json) : Scan string :=
  match v with
  | JStr s => ret s
  | _ => raise TypeError
  end.

(** The body of the loops over the headers. *)
Definition scan_header (hdr : json) : Scan unit :=
  match hdr with
  | JObj _ =>
      bind (py_get hdr "value" (JStr "")) (fun v =>
      bind (py_str v) (fun s =>
      append_all (filter PAYMENT_RE_search (URL_RE_findall s))))
  | _ => ret tt
  end.

(** [for hdr in entry.get(side, {}).get("headers", []): ...] *)
Definition scan_headers (entry : json) (side : string) : Scan unit :=
  bind (py_get entry side (JObj [])) (fun part =>
  bind (py_get part "headers" (JArr [])) (fun hs =>
  bind (py_iter hs) (fun items =>
  for_each scan_header items))).

(** The body of the loop over the entries. *)
Definition scan_entry (entry : json) : Scan unit :=
  bind (py_get entry "request" (JObj [])) (fun req =>
  bind (py_get req "url" (JStr "")) (fun url =>
  bind (py_str url) (fun u =>
  bind (append_all (if PAYMENT_RE_search u then [u] else [])) (fun _ =>
  bind (scan_headers entry "request") (fun _ =>
  scan_headers entry "response"))))).

(** The scan of the parsed document [har]. *)
Definition scan_json (har : json) : Scan unit :=
  bind (py_get har "log" (JObj [])) (fun log =>
  bind (py_get log "entries" (JArr [])) (fun entries =>
  bind (py_iter entries) (fun items =>
  for_each scan_entry items))).

(** An entry of a HAR file as the browser writes it: the URL of the
    request and the headers, name and value, of request and response. *)
Record HarEntry : Type := mkHarEntry {
  entry_url : string;
  request_headers : list (string * string);
  response_headers : list (string * string)
}.

Definition header_json (h : string * string) : json :=
  JObj [("name", JStr (fst h)); ("value", JStr (snd h))].

Definition entry_json (e : HarEntry) : json :=
  JObj [ ("request",
          JObj [ ("method", JStr "GET"); ("url", JStr (entry_url e));
                 ("headers", JArr (map header_json (request_headers e))) ]);
         ("response",
          JObj [ ("status", JNum);
                 ("headers", JArr (map header_json (response_headers e))) ]) ].

Definition har_json (entries : list HarEntry) : json :=
  JObj [ ("log", JObj [ ("version", JStr "1.2");
                        ("entries", JArr (map entry_json entries)) ]) ].

(** The URLs in the values of [headers] that [PAYMENT_RE] matches. *)
Definition header_matches (headers : list (string * string)) : list string :=
  flat_map (fun h => filter PAYMENT_RE_search (URL_RE_findall (snd h)))
           headers.

(** What the scan draws from one well-formed entry. *)
Definition entry_matches (e : HarEntry) : list string :=
  ((if PAYMENT_RE_search (entry_url e) then [entry_url e] else [])
   ++ header_matches (request_headers e)
   ++ header_matches (response_headers e))%list.

(** The shape of a match of [URL_RE]: http:// or https:// in any case,
    then at least one more character, all of them of the class. *)
Definition url_shaped (m : string) : Prop :=
  exists l run,
    m = l ++ run /\
    (eqb_ci l "http://" = true \/ eqb_ci l "https://" = true) /\
    run <> "" /\ all_chars is_url_char m = true.

(** * Properties *)

(** ** The spec's examples, run on the model *)

Example payment_urls_of_the_spec :
  PAYMENT_RE_search "https://api.stripe.com/v1/tokens" = true /\
  PAYMENT_RE_search "https://www.paypal.com/checkoutnow" = true /\
  PAYMENT_RE_search "https://example.com/about" = false.
Proof. repeat split; reflexivity. Qed.

Example extract_slug_of_a_campaign_url :
  extract_slug "https://www.GiveSendGo.com/help-anna/donate?x=1#top"
  = "help-anna".
Proof. reflexivity. Qed.

Example stripe_checkout_is_reported :
  main world_stripe_checkout
  = Some (SysExit
            {| output :=
                 [ InfoHarPath (har_path "help-anna");
                   InfoOpening "https://www.givesendgo.com/help-anna";
                   InfoLoaded; InfoReady; DebugPageClosed; InfoFlushing;
                   DebugDisconnected;
                   InfoHarWritten (har_path "help-anna") 2048;
                   DomainsHeader; DomainLine "stripe.com" 1 false;
                   UrlsHeader; UrlLine "https://js.stripe.com/v3" ];
               exit_code := 0 |}).
Proof. reflexivity. Qed.

Example table_orders_ties_by_discovery :
  most_common (Counter ["b.com"; "a.com"; "c.com"; "a.com"; "c.com"; "d.com"])
  = [("a.com", 2); ("c.com", 2); ("b.com", 1); ("d.com", 1)].
Proof. reflexivity. Qed.

(** ** Strings *)

Lemma append_nil_r (s : string) : s ++ "" = s.
Proof. induction s as [|c s IH]; simpl; [reflexivity | now rewrite IH]. Qed.

Lemma append_assoc (a b c : string) : (a ++ b) ++ c = a ++ (b ++ c).
Proof. induction a as [|x a IH]; simpl; [reflexivity | now rewrite IH]. Qed.

Lemma length_append (a b : string) :
  String.length (a ++ b) = String.length a + String.length b.
Proof. induction a as [|x a IH]; simpl; [reflexivity | now rewrite IH]. Qed.

(** A property of every code point, checked on all 256 of them. *)
Ltac by_cases_on_char c :=
  destruct c as [[] [] [] [] [] [] [] []]; vm_compute; try reflexivity;
  try discriminate; auto.

Lemma lower_char_not_upper (c : ascii) : is_upper (lower_char c) = false.
Proof. by_cases_on_char c. Qed.

Lemma lower_char_idem (c : ascii) : lower_char (lower_char c) = lower_char c.
Proof. by_cases_on_char c. Qed.

Lemma lower_char_dot (c : ascii) :
  (lower_char c =? ".")%char = (c =? ".")%char.
Proof. by_cases_on_char c. Qed.

Lemma lower_char_slash (c : ascii) :
  (lower_char c =? "/")%char = (c =? "/")%char.
Proof. by_cases_on_char c. Qed.

Lemma lower_char_fixed (c : ascii) : is_upper c = false -> lower_char c = c.
Proof. unfold lower_char. now intros ->. Qed.

Lemma lower_idem (s : string) : lower (lower s) = lower s.
Proof.
  induction s as [|c s IH]; simpl; [reflexivity|].
  now rewrite lower_char_idem, IH.
Qed.

Lemma lower_append (a b : string) : lower (a ++ b) = lower a ++ lower b.
Proof. induction a as [|x a IH]; simpl; [reflexivity | now rewrite IH]. Qed.

Lemma all_chars_append p (a b : string) :
  all_chars p (a ++ b) = all_chars p a && all_chars p b.
Proof.
  induction a as [|x a IH]; simpl; [reflexivity|].
  now rewrite IH, andb_assoc.
Qed.

Lemma all_chars_impl (p q : ascii -> bool) (s : string) :
  (forall c, p c = true -> q c = true) ->
  all_chars p s = true -> all_chars q s = true.
Proof.
  intros Hpq. induction s as [|c s IH]; simpl; [reflexivity|].
  intros H. apply andb_true_iff in H as [Hc Hs].
  now rewrite (Hpq _ Hc), IH.
Qed.

Lemma all_chars_lower p (s : string) :
  (forall c, p (lower_char c) = p c) ->
  all_chars p (lower s) = all_chars p s.
Proof.
  intros Hp. induction s as [|c s IH]; simpl; [reflexivity|].
  now rewrite Hp, IH.
Qed.

Lemma lower_is_lowercase (s : string) : is_lowercase (lower s) = true.
Proof.
  unfold is_lowercase. induction s as [|c s IH]; simpl; [reflexivity|].
  now rewrite lower_char_not_upper, IH.
Qed.

Lemma lower_fixed (s : string) : is_lowercase s = true -> lower s = s.
Proof.
  unfold is_lowercase. induction s as [|c s IH]; simpl; [reflexivity|].
  intros H. apply andb_true_iff in H as [Hc Hs].
  apply negb_true_iff in Hc. now rewrite (lower_char_fixed _ Hc), IH.
Qed.

Lemma lstrip_by_suffix p (s : string) : exists a, s = a ++ lstrip_by p s.
Proof.
  induction s as [|c s [a IH]]; simpl.
  - now exists "".
  - destruct (p c).
    + exists (String c a). simpl. now rewrite <- IH.
    + now exists "".
Qed.

Lemma rstrip_by_prefix p (s : string) : exists b, s = rstrip_by p s ++ b.
Proof.
  induction s as [|c s [b IH]]; simpl.
  - now exists "".
  - destruct (rstrip_by p s) as [|d r] eqn:E.
    + destruct (p c).
      * now exists (String c s).
      * exists s. reflexivity.
    + exists b. simpl. simpl in IH. now rewrite <- IH.
Qed.

Lemma all_chars_lstrip_by p q (s : string) :
  all_chars p s = true -> all_chars p (lstrip_by q s) = true.
Proof.
  intros H. destruct (lstrip_by_suffix q s) as [a Ha].
  rewrite Ha, all_chars_append in H. now apply andb_true_iff in H.
Qed.

Lemma all_chars_rstrip_by p q (s : string) :
  all_chars p s = true -> all_chars p (rstrip_by q s) = true.
Proof.
  intros H. destruct (rstrip_by_prefix q s) as [b Hb].
  rewrite Hb, all_chars_append in H. now apply andb_true_iff in H.
Qed.

Lemma lstrip_by_none p (s : string) :
  match s with "" => True | String c _ => p c = false end ->
  lstrip_by p s = s.
Proof. destruct s as [|c s]; simpl; [reflexivity | now intros ->]. Qed.

(** ** split, join and slices *)

Lemma split_not_nil sep (s : string) : split sep s <> [].
Proof.
  induction s as [|c s IH]; simpl; [discriminate|].
  destruct (c =? sep)%char; [discriminate|].
  destruct (split sep s); [contradiction | discriminate].
Qed.

Lemma split_lower sep (s : string) :
  (forall c, (lower_char c =? sep)%char = (c =? sep)%char) ->
  split sep (lower s) = map lower (split sep s).
Proof.
  intros Hsep. induction s as [|c s IH]; simpl; [reflexivity|].
  rewrite Hsep. destruct (c =? sep)%char; simpl; [now rewrite IH|].
  rewrite IH. destruct (split sep s); reflexivity.
Qed.

Lemma split_all_chars p sep (s : string) :
  all_chars p s = true ->
  Forall (fun x => all_chars p x = true) (split sep s).
Proof.
  induction s as [|c s IH]; simpl; intros H.
  - now constructor.
  - apply andb_true_iff in H as [Hc Hs]. specialize (IH Hs).
    destruct (c =? sep)%char; [now constructor|].
    destruct (split sep s) as [|x xs]; [now constructor; simpl; rewrite ?Hc|].
    inversion IH; subst. constructor; [simpl; now rewrite Hc | assumption].
Qed.

Lemma split_single sep (s : string) :
  length (split sep s) < 2 ->
  all_chars (fun c => negb (c =? sep)%char) s = true.
Proof.
  induction s as [|c s IH]; simpl; [reflexivity|].
  destruct (c =? sep)%char eqn:E; simpl.
  - pose proof (split_not_nil sep s). destruct (split sep s); simpl;
      [contradiction | lia].
  - destruct (split sep s) as [|x xs] eqn:Es; simpl in *; intros H.
    + apply IH. lia.
    + apply IH. exact H.
Qed.

Lemma Forall_skipn {A} (P : A -> Prop) n (l : list A) :
  Forall P l -> Forall P (skipn n l).
Proof.
  revert l. induction n as [|n IH]; intros l H; simpl; [assumption|].
  destruct l; [constructor|]. inversion H; subst. now apply IH.
Qed.

Lemma join_all_chars p sep (l : list string) :
  all_chars p sep = true ->
  Forall (fun x => all_chars p x = true) l ->
  all_chars p (join sep l) = true.
Proof.
  intros Hsep. induction l as [|x l IH]; intros H; [reflexivity|].
  inversion H; subst. specialize (IH H3).
  destruct l as [|y l]; [assumption|].
  change (join sep (x :: y :: l)) with (x ++ sep ++ join sep (y :: l)).
  now rewrite !all_chars_append, H2, Hsep, IH.
Qed.

(** ** reg_domain *)

(** The normalisation that opens [reg_domain] gives a lowercase host. *)
Lemma normalised_is_lowercase (netloc : string) :
  is_lowercase (lstrip "www." (lower netloc)) = true.
Proof. apply all_chars_lstrip_by, lower_is_lowercase. Qed.

(** The last-two-labels branch keeps lowercase hosts lowercase. *)
Lemma naive_is_lowercase (h : string) :
  is_lowercase h = true ->
  is_lowercase
    (if (2 <=? length (split "." h))%nat
     then join "." (slice_last 2 (split "." h)) else h) = true.
Proof.
  intros H. destruct (2 <=? length (split "." h))%nat; [|assumption].
  apply join_all_chars; [reflexivity|].
  apply Forall_skipn, split_all_chars, H.
Qed.

Lemma prefix_cons a c (p s : string) :
  String.prefix (String a p) (String c s)
  = if ascii_dec a c then String.prefix p s else false.
Proof. reflexivity. Qed.

Lemma substring_all (s : string) : substring 0 (String.length s) s = s.
Proof. induction s as [|c s IH]; simpl; [reflexivity | now rewrite IH]. Qed.

(** Away from hosts that begin with 'w' or '.', and from capitals, the
    code and the spec's reading agree. *)
Lemma reg_domain_agrees_plain (host : string) :
  is_lowercase host = true ->
  begins_with "w" host = false -> begins_with "." host = false ->
  reg_domain None host = spec_registrable_domain host.
Proof.
  intros Hl Hw Hd. unfold reg_domain, spec_registrable_domain, strip_www_label.
  rewrite (lower_fixed _ Hl).
  assert (Hstrip : lstrip "www." host = host).
  { apply lstrip_by_none. destruct host as [|c r]; [exact I|].
    simpl in *. now rewrite Hw, Hd. }
  assert (Hpre : startswith host "www." = false).
  { destruct host as [|c r]; [reflexivity|]. unfold startswith.
    rewrite prefix_cons.
    destruct (ascii_dec "w" c) as [<-|N]; [discriminate Hw | reflexivity]. }
  now rewrite Hstrip, Hpre.
Qed.

Lemma reg_domain_agrees_www (rest : string) :
  is_lowercase rest = true ->
  begins_with "w" rest = false -> begins_with "." rest = false ->
  reg_domain None ("www." ++ rest) = spec_registrable_domain ("www." ++ rest).
Proof.
  intros Hl Hw Hd. unfold reg_domain, spec_registrable_domain, strip_www_label.
  assert (Hlow : lower ("www." ++ rest) = "www." ++ rest).
  { rewrite lower_append, (lower_fixed _ Hl). reflexivity. }
  assert (Hstrip : lstrip "www." ("www." ++ rest) = rest).
  { change (lstrip "www." ("www." ++ rest)) with (lstrip "www." rest).
    apply lstrip_by_none. destruct rest as [|c r]; [exact I|].
    simpl in *. now rewrite Hw, Hd. }
  assert (Hpre : startswith ("www." ++ rest) "www." = true).
  { unfold startswith. cbn [append]. rewrite !prefix_cons.
    repeat (destruct (ascii_dec _ _); [|congruence]). now destruct rest. }
  rewrite Hlow, Hstrip, Hpre.
  change (substring 4 (String.length ("www." ++ rest) - 4) ("www." ++ rest))
    with (substring 0 (String.length rest - 0) rest).
  now rewrite Nat.sub_0_r, substring_all.
Qed.

(** C1: the three hosts of the spec are reduced as it says, and so is
    every host by the spec's reading; the code strips the characters 'w'
    and '.' where the spec removes the label "www.", so that
    "worldpay.com" comes out as "orldpay.com". *)
Theorem reg_domain_lstrip_defect :
  reg_domain None "js.stripe.com" = "stripe.com" /\
  reg_domain None "www.paypal.com" = "paypal.com" /\
  reg_domain None "checkout.adyen.com" = "adyen.com" /\
  spec_registrable_domain "worldpay.com" = "worldpay.com" /\
  reg_domain None "worldpay.com" = "orldpay.com" /\
  reg_domain None "worldpay.com" <> spec_registrable_domain "worldpay.com".
Proof. repeat split; try reflexivity. discriminate. Qed.

(** C8 as stated fails: a one-label host in capitals is not returned
    unchanged. *)
Lemma reg_domain_unchanged_counterexample :
  ~ (forall host, length (split "." host) < 2 -> reg_domain None host = host).
Proof.
  intros H. specialize (H "LOCALHOST"). simpl in H.
  assert (E : reg_domain None "LOCALHOST" = "LOCALHOST") by (apply H; lia).
  discriminate E.
Qed.

(** C8, amended: [reg_domain] is a total function, and on a host with
    fewer than two labels whose lowercase form does not begin with 'w',
    when no registrable domain is resolved, it returns the lowercased
    host: the input itself when that is already lowercase. *)
Theorem reg_domain_single_label (tx : resolver) (host : string) :
  length (split "." host) < 2 ->
  begins_with "w" (lower host) = false ->
  unresolved tx (lower host) ->
  reg_domain tx host = lower host /\
  (is_lowercase host = true -> reg_domain tx host = host).
Proof.
  intros Hlen Hw Hun.
  assert (Hdot : all_chars (fun c => negb (c =? ".")%char) (lower host) = true).
  { rewrite all_chars_lower; [now apply split_single|].
    intros c. now rewrite lower_char_dot. }
  assert (Hstrip : lstrip "www." (lower host) = lower host).
  { apply lstrip_by_none. destruct (lower host) as [|c r]; [exact I|].
    simpl in Hw, Hdot. apply andb_true_iff in Hdot as [Hc _].
    apply negb_true_iff in Hc. simpl. now rewrite Hw, Hc. }
  assert (Hparts : (2 <=? length (split "." (lower host)))%nat = false).
  { rewrite split_lower by (intros c; apply lower_char_dot).
    rewrite length_map. apply Nat.leb_gt. exact Hlen. }
  assert (E : reg_domain tx host = lower host).
  { unfold reg_domain. rewrite Hstrip, Hparts.
    destruct tx as [f|]; [|reflexivity].
    simpl in Hun. now rewrite Hun. }
  split; [exact E|]. intros Hl. now rewrite E, lower_fixed.
Qed.

Lemma reg_domain_single_label_witness :
  reg_domain None "localhost" = lower "localhost" /\
  (is_lowercase "localhost" = true -> reg_domain None "localhost" = "localhost").
Proof.
  apply (reg_domain_single_label None "localhost").
  - simpl. lia.
  - reflexivity.
  - exact I.
Defined.

(** C9: the result of [reg_domain] has no uppercase character, whatever
    the case of the host, because the host is lowercased first; so the
    result differs from a host in capitals that is otherwise left whole. *)
Theorem reg_domain_is_lowercase :
  (forall (tx : resolver) (host : string),
     keeps_lowercase tx -> is_lowercase (reg_domain tx host) = true) /\
  (forall host, is_lowercase (reg_domain None host) = true) /\
  reg_domain None "Stripe.COM" = "stripe.com".
Proof.
  assert (G : forall tx host,
             keeps_lowercase tx -> is_lowercase (reg_domain tx host) = true).
  { intros tx host Hk. unfold reg_domain.
    pose proof (normalised_is_lowercase host) as Hn.
    pose proof (naive_is_lowercase _ Hn) as Hnaive.
    destruct tx as [f|]; [|exact Hnaive].
    destruct (truthy (domain (f _)) && truthy (suffix (f _))); [|exact Hnaive].
    destruct (Hk _ Hn) as [Hd Hs]. unfold is_lowercase in *.
    now rewrite !all_chars_append, Hd, Hs. }
  split; [exact G|]. split; [|reflexivity].
  intros host. now apply G.
Qed.

(** A resolver that answers with the last two labels of the host. *)
Lemma reg_domain_is_lowercase_witness :
  is_lowercase
    (reg_domain
       (Some (fun h => {| domain := hd "" (slice_last 2 (split "." h));
                          suffix := last (split "." h) "" |}))
       "API.PayPal.Com") = true.
Proof.
  apply (proj1 reg_domain_is_lowercase). simpl. intros h Hh.
  pose proof (split_all_chars _ "." h Hh) as Hall.
  split.
  - unfold slice_last.
    pose proof (Forall_skipn _ (length (split "." h) - 2) _ Hall) as Hs.
    destruct (skipn _ _); [reflexivity|]. now inversion Hs.
  - clear Hh. induction Hall as [|x l Hx Hl IH]; [reflexivity|].
    destruct l; [exact Hx | exact IH].
Defined.

(** ** The slug pattern *)

Lemma eqb_ci_cons_inv (l : string) a (lit : string) :
  eqb_ci l (String a lit) = true ->
  exists c l', l = String c l' /\ eqb_ci_char a c = true /\
               eqb_ci l' lit = true.
Proof.
  unfold eqb_ci, eqb_ci_char. intros H. apply String.eqb_eq in H.
  destruct l as [|c l']; simpl in H; [discriminate|].
  injection H as Hc Hl. exists c, l'. split; [reflexivity|].
  split; [rewrite Hc; apply Ascii.eqb_refl | now apply String.eqb_eq].
Qed.

Lemma match_literal_ci_append (lit l s : string) :
  eqb_ci l lit = true -> match_literal_ci lit (l ++ s) = Some s.
Proof.
  revert l. induction lit as [|a lit IH]; intros l H.
  - unfold eqb_ci in H. apply String.eqb_eq in H.
    destruct l; [reflexivity | discriminate].
  - apply eqb_ci_cons_inv in H as (c & l' & -> & Hc & Hl).
    simpl. rewrite Hc. now apply IH.
Qed.

Lemma match_literal_ci_inv (lit s r : string) :
  match_literal_ci lit s = Some r ->
  exists l, s = l ++ r /\ eqb_ci l lit = true.
Proof.
  revert s. induction lit as [|a lit IH]; intros s H; simpl in H.
  - injection H as ->. now exists "".
  - destruct s as [|c s]; [discriminate|].
    destruct (eqb_ci_char a c) eqn:Hc; [|discriminate].
    destruct (IH _ H) as (l & -> & Hl). exists (String c l).
    split; [reflexivity|]. unfold eqb_ci, eqb_ci_char in *.
    apply Ascii.eqb_eq in Hc. apply String.eqb_eq in Hl.
    apply String.eqb_eq. cbn [lower]. now rewrite Hc, Hl.
Qed.

Lemma take_class_segment (X rest : string) :
  all_chars (fun c => negb (is_delim c)) X = true ->
  ends_segment rest -> take_class (X ++ rest) = X.
Proof.
  intros HX Hrest. induction X as [|c X IH]; simpl in *.
  - destruct rest as [|d rest]; [reflexivity|]. simpl in *. now rewrite Hrest.
  - apply andb_true_iff in HX as [Hc HX]. apply negb_true_iff in Hc.
    rewrite Hc. now rewrite IH.
Qed.

Lemma take_class_no_delim (s : string) :
  all_chars (fun c => negb (is_delim c)) (take_class s) = true.
Proof.
  induction s as [|c s IH]; simpl; [reflexivity|].
  destruct (is_delim c) eqn:E; simpl; [reflexivity | now rewrite E].
Qed.

Lemma match_slug_at_no_delim (s g : string) :
  match_slug_at s = Some g ->
  g <> "" /\ all_chars (fun c => negb (is_delim c)) g = true.
Proof.
  unfold match_slug_at. intros H.
  destruct (match_literal_ci SLUG_LITERAL s) as [rest|]; [|discriminate].
  pose proof (take_class_no_delim rest) as Hc.
  destruct (take_class rest); [discriminate|].
  injection H as <-. split; [discriminate | assumption].
Qed.

Lemma re_search_slug_no_delim (s g : string) :
  re_search_slug s = Some g ->
  g <> "" /\ all_chars (fun c => negb (is_delim c)) g = true.
Proof.
  induction s as [|c s IH]; simpl.
  - discriminate.
  - destruct (match_slug_at (String c s)) as [g'|] eqn:E.
    + intros H. injection H as <-. now apply match_slug_at_no_delim in E.
    + exact IH.
Qed.

(** The search finds something exactly where the pattern occurs. *)
Lemma re_search_slug_some (s g : string) :
  re_search_slug s = Some g -> contains_slug_pattern s.
Proof.
  induction s as [|x s IH].
  - discriminate.
  - cbn [re_search_slug].
    destruct (match_slug_at (String x s)) as [g'|] eqn:E.
    + intros _. unfold match_slug_at in E.
      destruct (match_literal_ci SLUG_LITERAL (String x s)) as [rest|] eqn:Em;
        [|discriminate].
      apply match_literal_ci_inv in Em as (l & Hs & Hl).
      destruct rest as [|c q]; [discriminate|]. simpl in E.
      destruct (is_delim c) eqn:Hc; [discriminate|].
      exists "", l, c, q. now repeat split.
    + intros H. destruct (IH H) as (p & l & c & q & -> & Hl & Hc).
      exists (String x p), l, c, q. now repeat split.
Qed.

Lemma re_search_slug_here (s g : string) :
  match_slug_at s = Some g -> re_search_slug s = Some g.
Proof.
  intros H. destruct s; [discriminate H|].
  cbn [re_search_slug]. now rewrite H.
Qed.

Lemma contains_slug_pattern_found (s : string) :
  contains_slug_pattern s -> re_search_slug s <> None.
Proof.
  intros (p & l & c & q & -> & Hl & Hc).
  assert (Hat : exists g, match_slug_at (l ++ String c q) = Some g).
  { unfold match_slug_at. rewrite (match_literal_ci_append _ _ _ Hl).
    simpl. rewrite Hc. eauto. }
  destruct Hat as [g Hat].
  induction p as [|x p IH]; cbn [append re_search_slug].
  - now rewrite (re_search_slug_here _ _ Hat).
  - destruct (match_slug_at (String x _)); [discriminate | exact IH].
Qed.

Lemma re_search_slug_none (s : string) :
  re_search_slug s = None <-> ~ contains_slug_pattern s.
Proof.
  split.
  - intros H Hc. now apply contains_slug_pattern_found in Hc.
  - intros H. destruct (re_search_slug s) as [g|] eqn:E; [|reflexivity].
    elim H. now apply re_search_slug_some in E.
Qed.

Lemma occurs_before_sound (n : nat) (s : string) :
  occurs_before n s = false -> no_occurrence_before n s.
Proof.
  revert s. induction n as [|n IH]; intros s H p l q Hs Hl; [lia|].
  cbn [occurs_before] in H.
  destruct (match_literal_ci SLUG_LITERAL s) as [r|] eqn:Em; [discriminate|].
  destruct p as [|x p].
  - subst s. cbn [append] in Em.
    now rewrite (match_literal_ci_append _ _ _ Hl) in Em.
  - subst s. cbn [append] in H. cbn [String.length]. apply le_n_S.
    now apply (IH _ H p l q).
Qed.

(** With no occurrence of the literal before it, the search reaches the
    occurrence at offset [length pre] and returns the run that follows. *)
Lemma re_search_slug_first (pre lit X rest : string) :
  eqb_ci lit SLUG_LITERAL = true ->
  no_occurrence_before (String.length pre) (pre ++ lit ++ X ++ rest) ->
  X <> "" ->
  all_chars (fun c => negb (is_delim c)) X = true ->
  ends_segment rest ->
  re_search_slug (pre ++ lit ++ X ++ rest) = Some X.
Proof.
  intros Hlit Hfirst HX Hclass Hrest.
  assert (Hat : match_slug_at (lit ++ X ++ rest) = Some X).
  { unfold match_slug_at. rewrite (match_literal_ci_append _ _ _ Hlit).
    rewrite (take_class_segment _ _ Hclass Hrest).
    destruct X; [contradiction | reflexivity]. }
  induction pre as [|x pre IH].
  - simpl. now apply re_search_slug_here.
  - cbn [append re_search_slug].
    destruct (match_slug_at (String x (pre ++ lit ++ X ++ rest))) eqn:E.
    + exfalso. unfold match_slug_at in E.
      destruct (match_literal_ci SLUG_LITERAL _) as [r|] eqn:Em;
        [|discriminate].
      apply match_literal_ci_inv in Em as (l & Hs & Hl).
      specialize (Hfirst "" l r Hs Hl). simpl in Hfirst. lia.
    + apply IH. intros p l q Hs Hl.
      specialize (Hfirst (String x p) l q). simpl in Hfirst.
      apply le_S_n, Hfirst; [now rewrite Hs | assumption].
Qed.

(** C4 as stated fails: when nothing but a '?' follows the literal, the
    segment is empty and the whole input comes back. *)
Lemma extract_slug_empty_segment_counterexample :
  ~ (forall pre lit X rest,
       eqb_ci lit SLUG_LITERAL = true ->
       no_occurrence_before (String.length pre) (pre ++ lit ++ X ++ rest) ->
       all_chars (fun c => negb (is_delim c)) X = true ->
       ends_segment rest ->
       extract_slug (pre ++ lit ++ X ++ rest) = X).
Proof.
  intros H.
  specialize (H "https://www." "GiveSendGo.com/" "" "?utm=1").
  assert (E : extract_slug "https://www.GiveSendGo.com/?utm=1" = "").
  { apply H; try reflexivity. now apply occurs_before_sound. }
  discriminate E.
Qed.

(** C4, amended: when the first occurrence of givesendgo.com/ (in any
    letter case) is followed by a non-empty run <X> of characters other
    than '/', '?' and '#', ending at the first of these or at the end of
    the input, [extract_slug] returns exactly <X>. *)
Theorem extract_slug_segment (pre lit X rest : string) :
  eqb_ci lit SLUG_LITERAL = true ->
  no_occurrence_before (String.length pre) (pre ++ lit ++ X ++ rest) ->
  X <> "" ->
  all_chars (fun c => negb (is_delim c)) X = true ->
  ends_segment rest ->
  extract_slug (pre ++ lit ++ X ++ rest) = X.
Proof.
  intros Hlit Hfirst HX Hclass Hrest. unfold extract_slug.
  now rewrite (re_search_slug_first _ _ _ _ Hlit Hfirst HX Hclass Hrest).
Qed.

Lemma extract_slug_segment_witness :
  extract_slug ("https://WWW." ++ "GiveSendGo.COM/" ++ "Help-Anna" ++ "?ref=x/y")
  = "Help-Anna".
Proof.
  apply extract_slug_segment.
  - reflexivity.
  - apply occurs_before_sound. reflexivity.
  - discriminate.
  - reflexivity.
  - reflexivity.
Defined.

(** ** strip and the idempotence of extract_slug *)





(** [strip s] sits inside [s]. *)
Lemma strip_inside (s : string) : exists a b, s = a ++ strip s ++ b.
Proof.
  unfold strip. destruct (lstrip_by_suffix is_space s) as [a Ha].
  destruct (rstrip_by_prefix is_space (lstrip_by is_space s)) as [b Hb].
  exists a, b. now rewrite <- Hb.
Qed.



(** Every match of the pattern holds a '/'. *)
Lemma no_slash_no_pattern (s : string) :
  all_chars (fun c => negb (c =? "/")%char) s = true ->
  ~ contains_slug_pattern s.
Proof.
  intros H (p & l & c & q & -> & Hl & Hc).
  rewrite !all_chars_append in H.
  apply andb_true_iff in H as [_ H]. apply andb_true_iff in H as [H _].
  unfold eqb_ci in Hl. apply String.eqb_eq in Hl.
  rewrite <- (all_chars_lower _ l) in H.
  - rewrite Hl in H. discriminate H.
  - intros x. now rewrite lower_char_slash.
Qed.


Lemma extract_slug_no_pattern (s : string) :
  ~ contains_slug_pattern s -> extract_slug s = strip s.
Proof.
  intros H. unfold extract_slug.
  now rewrite (proj2 (re_search_slug_none s) H).
Qed.





(** ** The HAR path *)

(** C10: on a target that does not match the pattern the trimmed target
    goes as it is into the file name pmtproc_<target>_monitor.har; for the
    target "a/b" the path so derived lies one directory below the output
    directory. *)
Theorem har_path_embeds_target :
  (forall target,
     ~ contains_slug_pattern target ->
     har_file_name (extract_slug target)
     = "pmtproc_" ++ strip target ++ "_monitor.har") /\
  (~ contains_slug_pattern "a/b" /\
   har_file_name (extract_slug "a/b") = "pmtproc_a/b_monitor.har" /\
   parts (har_path (extract_slug "a/b"))
   = (parts HAR_DIR ++ ["pmtproc_a"; "b_monitor.har"])%list /\
   parent (har_path (extract_slug "a/b")) <> HAR_DIR).
Proof.
  split.
  - intros target H. unfold har_file_name.
    now rewrite (extract_slug_no_pattern _ H).
  - split; [apply re_search_slug_none; reflexivity|].
    repeat split; try reflexivity. discriminate.
Qed.

Lemma har_path_embeds_target_witness :
  har_file_name (extract_slug " my-campaign ")
  = "pmtproc_" ++ strip " my-campaign " ++ "_monitor.har".
Proof.
  apply (proj1 har_path_embeds_target).
  apply re_search_slug_none. reflexivity.
Defined.

(** ** sorted *)

Section Sorted.

Context {A : Type}.
Variable le : A -> A -> bool.

Lemma insert_sorted_perm (x : A) (l : list A) :
  Permutation (insert_sorted le x l) (x :: l).
Proof.
  induction l as [|y l IH]; simpl; [reflexivity|].
  destruct (le x y); [reflexivity|].
  rewrite IH. apply perm_swap.
Qed.

Lemma sorted_perm (l : list A) : Permutation (sorted le l) l.
Proof.
  induction l as [|x l IH]; simpl; [reflexivity|].
  rewrite insert_sorted_perm. now constructor.
Qed.

Hypothesis le_total : forall x y, le x y = true \/ le y x = true.
Hypothesis le_trans :
  forall x y z, le x y = true -> le y z = true -> le x z = true.

Lemma insert_sorted_ordered (x : A) (l : list A) :
  StronglySorted (fun a b => le a b = true) l ->
  StronglySorted (fun a b => le a b = true) (insert_sorted le x l).
Proof.
  induction l as [|y l IH]; intros H; simpl.
  - repeat constructor.
  - inversion H as [|? ? Hl Hy]; subst.
    destruct (le x y) eqn:E.
    + constructor; [assumption|]. constructor; [exact E|].
      eapply Forall_impl; [|exact Hy]. intros z Hz.
      now apply le_trans with y.
    + constructor; [now apply IH|].
      assert (Hyx : le y x = true).
      { destruct (le_total x y) as [C|C]; [congruence | exact C]. }
      apply Forall_forall. intros z Hz.
      apply (Permutation_in _ (insert_sorted_perm x l)) in Hz.
      destruct Hz as [<-|Hz]; [exact Hyx|].
      rewrite Forall_forall in Hy. now apply Hy.
Qed.

Lemma sorted_ordered (l : list A) :
  StronglySorted (fun a b => le a b = true) (sorted le l).
Proof.
  induction l as [|x l IH]; simpl; [constructor|].
  now apply insert_sorted_ordered.
Qed.

(** Stability: the elements picked by [f], which [le] does not tell
    apart, keep the order they had. *)
Variable f : A -> bool.
Hypothesis f_ties : forall x y, f x = true -> f y = true -> le x y = true.

Lemma insert_sorted_filter (x : A) (l : list A) :
  filter f (insert_sorted le x l) = filter f (x :: l).
Proof.
  induction l as [|y l IH]; [reflexivity|]. cbn [insert_sorted].
  destruct (le x y) eqn:E; [reflexivity|].
  cbn [filter] in *. rewrite IH.
  destruct (f x) eqn:Hx, (f y) eqn:Hy; try reflexivity.
  rewrite (f_ties _ _ Hx Hy) in E. discriminate E.
Qed.

Lemma sorted_filter (l : list A) : filter f (sorted le l) = filter f l.
Proof.
  induction l as [|x l IH]; [reflexivity|]. cbn [sorted].
  rewrite insert_sorted_filter. cbn [filter]. now rewrite IH.
Qed.

End Sorted.

(** A sorted list without repetition is fixed by its elements. *)
Lemma strongly_sorted_unique {A} (R : A -> A -> Prop) (l1 l2 : list A) :
  (forall x y, R x y -> R y x -> x = y) ->
  StronglySorted R l1 -> StronglySorted R l2 ->
  NoDup l1 -> Permutation l1 l2 -> l1 = l2.
Proof.
  intros Hanti. revert l2.
  induction l1 as [|x l1 IH]; intros l2 H1 H2 Hnd Hp.
  - apply Permutation_nil in Hp. now subst.
  - destruct l2 as [|y l2].
    { apply Permutation_sym, Permutation_nil in Hp. discriminate. }
    inversion H1 as [|? ? Hs1 Hx]; subst.
    inversion H2 as [|? ? Hs2 Hy]; subst.
    inversion Hnd as [|? ? Hnx Hnd1]; subst.
    assert (Exy : x = y).
    { assert (Hin : In x (y :: l2))
        by (eapply Permutation_in; [exact Hp | now left]).
      assert (Hin' : In y (x :: l1))
        by (eapply Permutation_in; [symmetry; exact Hp | now left]).
      destruct Hin as [->|Hin]; [reflexivity|].
      destruct Hin' as [->|Hin']; [reflexivity|].
      apply Hanti.
      - rewrite Forall_forall in Hx. now apply Hx.
      - rewrite Forall_forall in Hy. now apply Hy. }
    subst y. f_equal. apply IH; try assumption.
    now apply Permutation_cons_inv in Hp.
Qed.

(** ** The order of strings *)

Lemma ascii_compare_refl (a : ascii) : Ascii.compare a a = Eq.
Proof. unfold Ascii.compare. apply N.compare_refl. Qed.

Lemma ascii_compare_eq (a b : ascii) : Ascii.compare a b = Eq -> a = b.
Proof. apply Ascii.compare_eq_iff. Qed.

Lemma ascii_compare_lt_trans (a b c : ascii) :
  Ascii.compare a b = Lt -> Ascii.compare b c = Lt -> Ascii.compare a c = Lt.
Proof.
  unfold Ascii.compare. rewrite !N.compare_lt_iff. apply N.lt_trans.
Qed.

Lemma string_compare_lt_trans (s1 s2 s3 : string) :
  String.compare s1 s2 = Lt -> String.compare s2 s3 = Lt ->
  String.compare s1 s3 = Lt.
Proof.
  revert s2 s3. induction s1 as [|a s1 IH]; intros [|b s2] [|c s3];
    simpl; try discriminate; try reflexivity.
  destruct (Ascii.compare a b) eqn:Eab; try discriminate;
    destruct (Ascii.compare b c) eqn:Ebc; try discriminate; intros H12 H23.
  - apply ascii_compare_eq in Eab, Ebc. subst.
    rewrite ascii_compare_refl. now apply IH with s2.
  - apply ascii_compare_eq in Eab. subst. now rewrite Ebc.
  - apply ascii_compare_eq in Ebc. subst. now rewrite Eab.
  - now rewrite (ascii_compare_lt_trans _ _ _ Eab Ebc).
Qed.

Lemma string_compare_refl (s : string) : String.compare s s = Eq.
Proof.
  induction s as [|a s IH]; simpl; [reflexivity|].
  now rewrite ascii_compare_refl.
Qed.

Lemma string_leb_iff (s1 s2 : string) :
  String.leb s1 s2 = true <-> String.compare s1 s2 = Lt \/ s1 = s2.
Proof.
  unfold String.leb. split.
  - destruct (String.compare s1 s2) eqn:E; try discriminate; intros _.
    + right. now apply String.compare_eq_iff.
    + now left.
  - intros [-> | ->]; [reflexivity|]. now rewrite string_compare_refl.
Qed.

Lemma string_leb_trans (s1 s2 s3 : string) :
  String.leb s1 s2 = true -> String.leb s2 s3 = true ->
  String.leb s1 s3 = true.
Proof.
  rewrite !string_leb_iff. intros [H12 | ->] [H23 | ->]; auto.
  left. now apply string_compare_lt_trans with s2.
Qed.

(** ** distinct and unique_urls *)

Lemma distinct_in (x : string) (l : list string) :
  In x (distinct l) <-> In x l.
Proof.
  induction l as [|y l IH]; simpl; [tauto|].
  rewrite filter_In, IH, negb_true_iff, String.eqb_neq.
  destruct (string_dec y x) as [->|N]; [tauto|].
  split; [tauto|]. intros [E|H]; [tauto|]. right. split; [exact H|congruence].
Qed.

Lemma distinct_nodup (l : list string) : NoDup (distinct l).
Proof.
  induction l as [|y l IH]; simpl; constructor.
  - rewrite filter_In, String.eqb_refl. simpl. intros [_ H]. discriminate.
  - now apply NoDup_filter.
Qed.

(** The URLs of the report do not depend on the order in which the set
    is walked. *)
Lemma sorted_set_order_free (l l' : list string) :
  NoDup l -> Permutation l l' -> sorted String.leb l = sorted String.leb l'.
Proof.
  intros Hnd Hp.
  apply (strongly_sorted_unique (fun a b => String.leb a b = true)).
  - intros x y. apply String.leb_antisym.
  - apply sorted_ordered; [apply String.leb_total | apply string_leb_trans].
  - apply sorted_ordered; [apply String.leb_total | apply string_leb_trans].
  - apply (Permutation_NoDup (l := l)); [|exact Hnd].
    symmetry. apply sorted_perm.
  - rewrite sorted_perm, Hp. symmetry. apply sorted_perm.
Qed.


(** ** Counter and most_common *)

Lemma distinct_snoc (l : list string) (d : string) :
  distinct (l ++ [d])
  = if in_dec string_dec d l then distinct l else (distinct l ++ [d])%list.
Proof.
  induction l as [|x l IH]; [reflexivity|].
  cbn [app distinct]. rewrite IH.
  destruct (in_dec string_dec d l) as [Hl|Hl];
    destruct (in_dec string_dec d (x :: l)) as [Hx|Hx];
    try reflexivity.
  - elim Hx. now right.
  - rewrite filter_app. cbn [filter].
    destruct Hx as [->|Hx]; [|contradiction].
    rewrite String.eqb_refl. cbn [negb]. now rewrite app_nil_r.
  - rewrite filter_app. cbn [filter].
    destruct (String.eqb_spec d x) as [->|N]; [elim Hx; now left|].
    reflexivity.
Qed.

(** Adding to a counter whose keys are distinct. *)
Lemma counter_add_map (d : string) (f : string -> nat) (ks : list string) :
  NoDup ks ->
  counter_add d (map (fun k => (k, f k)) ks)
  = if in_dec string_dec d ks
    then map (fun k => (k, if (k =? d)%string then S (f k) else f k)) ks
    else (map (fun k => (k, f k)) ks ++ [(d, 1)])%list.
Proof.
  induction ks as [|k ks IH]; intros Hnd; [reflexivity|].
  inversion Hnd as [|? ? Hk Hks]; subst. cbn [map counter_add].
  destruct (String.eqb_spec k d) as [->|N].
  - destruct (in_dec string_dec d (d :: ks)) as [_|C]; [|elim C; now left].
    f_equal. apply map_ext_in. intros a Ha.
    destruct (String.eqb_spec a d) as [->|_]; [contradiction | reflexivity].
  - rewrite (IH Hks).
    destruct (in_dec string_dec d ks) as [Hd|Hd];
      destruct (in_dec string_dec d (k :: ks)) as [Hd'|Hd']; try reflexivity.
    + elim Hd'. now right.
    + destruct Hd' as [E|Hd']; [congruence | contradiction].
Qed.

Lemma Counter_snoc (l : list string) (d : string) :
  Counter (l ++ [d]) = counter_add d (Counter l).
Proof. unfold Counter. now rewrite fold_left_app. Qed.

(** A counter holds the distinct elements in the order of their first
    occurrence, each with the number of its occurrences. *)
Lemma Counter_spec (l : list string) :
  Counter l = map (fun k => (k, count_occ string_dec l k)) (distinct l).
Proof.
  induction l as [|d l IH] using rev_ind; [reflexivity|].
  rewrite Counter_snoc, IH, counter_add_map by apply distinct_nodup.
  rewrite distinct_snoc.
  destruct (in_dec string_dec d (distinct l)) as [Hd|Hd];
    destruct (in_dec string_dec d l) as [Hl|Hl].
  - apply map_ext. intros k. rewrite count_occ_app. cbn [count_occ].
    destruct (String.eqb_spec k d) as [->|N].
    + destruct (string_dec d d); [apply f_equal; lia | congruence].
    + destruct (string_dec d k); [congruence | apply f_equal; lia].
  - elim Hl. now apply distinct_in.
  - elim Hd. now apply distinct_in.
  - rewrite map_app. cbn [map]. f_equal.
    + apply map_ext_in. intros k Hk. rewrite count_occ_app. cbn [count_occ].
      destruct (string_dec d k); [congruence | apply f_equal; lia].
    + rewrite count_occ_app. cbn [count_occ].
      rewrite (count_occ_not_In string_dec l d) in Hl. rewrite Hl.
      destruct (string_dec d d); [reflexivity | congruence].
Qed.

Lemma filter_map_swap {A B} (g : A -> B) (p : B -> bool) (l : list A) :
  filter p (map g l) = map g (filter (fun x => p (g x)) l).
Proof.
  induction l as [|x l IH]; [reflexivity|]. cbn [map filter].
  destruct (p (g x)); cbn [map]; now rewrite IH.
Qed.

Lemma StronglySorted_impl {A} (R R' : A -> A -> Prop) (l : list A) :
  (forall x y, R x y -> R' x y) -> StronglySorted R l -> StronglySorted R' l.
Proof.
  intros HR. induction 1 as [|x l Hl IH Hx]; constructor; [assumption|].
  eapply Forall_impl; [|exact Hx]. intros y. apply HR.
Qed.

(** C6: the rows of the domain table are those of the counter, in
    descending order of count; the domains of one count stand in the order
    of their first occurrence among the domains, which is the order of
    their insertion into the counter. *)
Theorem most_common_descending_stable (w : World) (matched : list string) :
  let ds := domains (_tx w) (netloc_of w) matched in
  let table := most_common (domain_counts (_tx w) (netloc_of w) matched) in
  Permutation table
    (map (fun k => (k, count_occ string_dec ds k)) (distinct ds)) /\
  StronglySorted (fun a b => snd b <= snd a) table /\
  (forall n,
     map fst (filter (fun e => snd e =? n)%nat table)
     = filter (fun k => count_occ string_dec ds k =? n)%nat (distinct ds)) /\
  (exists after,
     report w matched
     = (DomainsHeader
        :: map (fun e => DomainLine (fst e) (snd e) (negb (snd e =? 1)%nat))
               table ++ after)%list).
Proof.
  intros ds table. unfold table, domain_counts, most_common. fold ds.
  repeat split.
  - rewrite sorted_perm, Counter_spec. reflexivity.
  - apply StronglySorted_impl
      with (R := fun a b : string * nat => (snd b <=? snd a)%nat = true).
    + intros x y. apply Nat.leb_le.
    + apply sorted_ordered.
      * intros x y. rewrite !Nat.leb_le. lia.
      * intros x y z. rewrite !Nat.leb_le. lia.
  - intros n. rewrite sorted_filter.
    + rewrite Counter_spec, filter_map_swap, map_map. cbn [fst snd].
      apply map_id.
    + intros x y Hx Hy. apply Nat.eqb_eq in Hx, Hy. apply Nat.leb_le. lia.
  - unfold report. eexists. reflexivity.
Qed.

(** ** The stop signal *)

Lemma dispatch_keeps_stop (e : Event) (st : Session) :
  stop_event st = true -> stop_event (dispatch e st) = true.
Proof.
  destruct e; simpl; try reflexivity; try easy.
  unfold capture_request. now destruct (PAYMENT_RE_search url).
Qed.

Lemma dispatch_all_keeps_stop (evs : list Event) (st : Session) :
  stop_event st = true ->
  stop_event (fold_left (fun s e => dispatch e s) evs st) = true.
Proof.
  revert st. induction evs as [|e evs IH]; intros st H; [exact H|].
  simpl. now apply IH, dispatch_keeps_stop.
Qed.

Lemma teardown_keeps_stop (evs : list Event) (st : Session) :
  stop_event st = true -> stop_event (teardown evs st) = true.
Proof. intros H. unfold teardown. now apply dispatch_all_keeps_stop. Qed.



Lemma print_flushings (m : Msg) (st : Session) :
  flushings (print m st)
  = flushings st + (if is_flushing m then 1 else 0).
Proof.
  unfold flushings, print. simpl. rewrite filter_app, length_app. simpl.
  now destruct (is_flushing m).
Qed.

Lemma dispatch_flushings (e : Event) (st : Session) :
  flushings (dispatch e st) = flushings st.
Proof.
  destruct e; simpl; try reflexivity.
  - unfold capture_request. now destruct (PAYMENT_RE_search url).
  - unfold _on_page_close, flushings. simpl.
    rewrite filter_app, length_app. simpl. lia.
  - unfold _on_browser_disconnected, flushings. simpl.
    rewrite filter_app, length_app. simpl. lia.
Qed.

Lemma dispatch_all_flushings (evs : list Event) (st : Session) :
  flushings (fold_left (fun s e => dispatch e s) evs st) = flushings st.
Proof.
  revert st. induction evs as [|e evs IH]; intros st; [reflexivity|].
  simpl. now rewrite IH, dispatch_flushings.
Qed.

Lemma wait_loop_flushings (evs : list Event) (st st' : Session) rest :
  wait_loop evs st = Some (st', rest) -> flushings st' = flushings st.
Proof.
  revert st. induction evs as [|e evs IH]; intros st; cbn [wait_loop];
    destruct (stop_event st); try discriminate;
    try (intros H; injection H as <- _; reflexivity).
  destruct e; try (intros H; apply IH in H; now rewrite H, dispatch_flushings).
  intros H. injection H as <- _. rewrite print_flushings. simpl. lia.
Qed.

Lemma teardown_flushings (evs : list Event) (st : Session) :
  flushings (teardown evs st) = S (flushings st).
Proof.
  unfold teardown. rewrite dispatch_all_flushings.
  unfold flushings. simpl. rewrite filter_app, length_app. simpl. lia.
Qed.

Lemma run_session_flushings (w : World) (slug : string) (st : Session) :
  run_session w slug = Some st -> flushings st = 1.
Proof.
  unfold run_session. destruct (goto_error w) as [e|].
  - intros H. injection H as <-. rewrite teardown_flushings.
    now rewrite !print_flushings.
  - destruct (wait_loop _ _) as [[st' rest]|] eqn:E; [|discriminate].
    intros H. injection H as <-. rewrite teardown_flushings.
    apply wait_loop_flushings in E. rewrite E.
    now rewrite !print_flushings.
Qed.

Lemma matched_append_all_flushings (us : list string) (st : Session) :
  flushings (fold_left (fun s u => matched_append u s) us st) = flushings st.
Proof.
  revert st. induction us as [|u us IH]; intros st; [reflexivity|].
  simpl. now rewrite IH.
Qed.

Lemma scan_har_flushings (w : World) (st : Session) :
  flushings (scan_har w st) = flushings st.
Proof.
  unfold scan_har. destruct (har_exists w); [|reflexivity].
  destruct (har_scan_error w).
  - rewrite print_flushings, matched_append_all_flushings. simpl. lia.
  - apply matched_append_all_flushings.
Qed.

Lemma print_all_flushings (ms : list Msg) (st : Session) :
  flushings (print_all ms st)
  = flushings st + length (filter is_flushing ms).
Proof.
  unfold print_all. revert st.
  induction ms as [|m ms IH]; intros st; simpl; [lia|].
  rewrite IH, print_flushings. destruct (is_flushing m); simpl; lia.
Qed.

Lemma report_no_flushing (w : World) (matched : list string) :
  filter is_flushing (report w matched) = [].
Proof.
  unfold report. rewrite !filter_app, !filter_map_swap. simpl.
  set (f := fun _ : string * nat => false).
  set (g := fun _ : string => false).
  assert (Hf : forall l, filter f l = []) by (induction l; auto).
  assert (Hg : forall l, filter g l = []) by (induction l; auto).
  now rewrite Hf, Hg.
Qed.


(** A run that reaches [sys.exit] with an argument has been through the
    session and leaves with the status that the HAR file decides. *)
Lemma main_sys_exit_inv (w : World) (o : Outcome) :
  2 <= length (argv w) ->
  main w = Some (SysExit o) ->
  exists st,
    run_session w (extract_slug (nth 1 (argv w) "")) = Some st /\
    exit_code o = (if har_exists w then 0 else 1) /\
    length (filter is_flushing (output o)) = flushings st.
Proof.
  intros Hargs Hmain. unfold main in Hmain.
  rewrite (proj2 (Nat.ltb_ge _ _) Hargs) in Hmain.
  destruct (snd (kill_stale_chromium (os_before w))); [discriminate|].
  destruct (run_session w _) as [st|] eqn:Hrun; [|discriminate].
  destruct (snd (kill_stale_chromium (os_after w))); [discriminate|].
  exists st. split; [reflexivity|].
  set (st1 := match har_file w with
              | Some size => print (InfoHarWritten _ size) st
              | None => print (ErrorHarMissing _) st
              end) in Hmain.
  assert (H1 : flushings (scan_har w st1) = flushings st).
  { rewrite scan_har_flushings. unfold st1.
    destruct (har_file w); rewrite print_flushings; simpl; lia. }
  destruct (matched_urls (scan_har w st1)) as [|u us].
  - assert (Ho : o = {| output := stdout (print NoMatches (scan_har w st1));
                        exit_code := if har_exists w then 0 else 1 |})
      by congruence.
    rewrite Ho. split; [reflexivity|]. cbn [output].
    change (length (filter is_flushing (stdout ?s))) with (flushings s).
    rewrite print_flushings, H1. simpl. lia.
  - destruct (find (urlparse_raises w) (unique_urls (u :: us)));
      [discriminate|].
    assert (Ho : o = {| output :=
                          stdout (print_all (report w (u :: us))
                                            (scan_har w st1));
                        exit_code := if har_exists w then 0 else 1 |})
      by congruence.
    rewrite Ho. split; [reflexivity|]. cbn [output].
    change (length (filter is_flushing (stdout ?s))) with (flushings s).
    rewrite print_all_flushings, report_no_flushing, H1. simpl. lia.
Qed.

(** A run that dies of an uncaught exception has announced the shutdown
    sequence at most once. *)
Lemma main_traceback_flushings (w : World) (e : Uncaught)
    (printed : list Msg) :
  main w = Some (Traceback e printed) ->
  length (filter is_flushing printed) <= 1.
Proof.
  unfold main. destruct (length (argv w) <? 2)%nat; [discriminate|].
  destruct (snd (kill_stale_chromium (os_before w))).
  { intros H. injection H as _ <-. simpl. lia. }
  destruct (run_session w _) as [st|] eqn:Hrun; [|discriminate].
  pose proof (run_session_flushings _ _ _ Hrun) as Hst.
  destruct (snd (kill_stale_chromium (os_after w))).
  { intros H. injection H as _ <-. fold (flushings st). lia. }
  set (st1 := match har_file w with
              | Some size => print (InfoHarWritten _ size) st
              | None => print (ErrorHarMissing _) st
              end).
  assert (H1 : flushings (scan_har w st1) = flushings st).
  { rewrite scan_har_flushings. unfold st1.
    destruct (har_file w); rewrite print_flushings; simpl; lia. }
  destruct (matched_urls (scan_har w st1)) as [|u us]; [discriminate|].
  destruct (find (urlparse_raises w) (unique_urls (u :: us)));
    [|discriminate].
  intros H. injection H as _ <-. fold (flushings (scan_har w st1)). lia.
Qed.

(** C2 as stated fails: the interrupt ends the waiting loop and leaves
    the flag clear. *)
Lemma stop_signal_interrupt_counterexample :
  ~ (forall e,
       In e [PageClose; BrowserDisconnected; KeyboardInterrupt] ->
       forall st rest,
         wait_loop [e] initial_session = Some (st, rest) ->
         stop_event st = true).
Proof.
  intros H.
  specialize (H KeyboardInterrupt (or_intror (or_intror (or_introl eq_refl)))
                _ _ eq_refl).
  discriminate H.
Qed.

(** C2, amended: the flag is set by the page-close and by the
    browser-disconnect listener; the operator's interrupt leaves the
    waiting loop without setting it.  No listener and no step of the
    shutdown sequence clears a set flag, setting it again changes nothing,
    and a run announces the shutdown sequence once: exactly once when it
    reaches [sys.exit], never twice when it dies of an exception. *)
Theorem stop_signal_set_once :
  (forall st, stop_event (_on_page_close st) = true) /\
  (forall st, stop_event (_on_browser_disconnected st) = true) /\
  (forall evs st,
     stop_event st = false ->
     exists st', wait_loop (KeyboardInterrupt :: evs) st = Some (st', evs) /\
                 stop_event st' = false) /\
  (forall e st, stop_event st = true -> stop_event (dispatch e st) = true) /\
  (forall evs st, stop_event st = true -> stop_event (teardown evs st) = true) /\
  (forall st, stop_event_set (stop_event_set st) = stop_event_set st) /\
  (forall st, stop_event st = true -> stop_event_set st = st) /\
  (forall w o,
     2 <= length (argv w) -> main w = Some (SysExit o) ->
     length (filter is_flushing (output o)) = 1) /\
  (forall w e printed,
     main w = Some (Traceback e printed) ->
     length (filter is_flushing printed) <= 1).
Proof.
  repeat split; try reflexivity.
  - intros evs st H. eexists. cbn [wait_loop]. rewrite H. split; reflexivity || exact H.
  - apply dispatch_keeps_stop.
  - apply teardown_keeps_stop.
  - intros [s m c o] H. simpl in H. now subst.
  - intros w o Hargs Hmain.
    destruct (main_sys_exit_inv w o Hargs Hmain) as (st & Hrun & _ & Hf).
    now rewrite Hf, (run_session_flushings _ _ _ Hrun).
  - apply main_traceback_flushings.
Qed.

Lemma stop_signal_set_once_witness :
  stop_event
    (teardown [BrowserDisconnected] (_on_page_close initial_session)) = true.
Proof.
  apply (proj1 (proj2 (proj2 (proj2 (proj2 stop_signal_set_once))))).
  reflexivity.
Defined.

(** Without an argument [main] prints the usage line and leaves with 1. *)
Lemma main_usage (w : World) :
  length (argv w) < 2 ->
  main w = Some (SysExit {| output := [Usage]; exit_code := 1 |}).
Proof. intros H. unfold main. now rewrite (proj2 (Nat.ltb_lt _ _) H). Qed.

(** C3: the HAR file exists and the run still leaves with status 1.  A
    response header holds https://checkout.stripe.com] ; the scan of the
    HAR file takes it up, [urlparse] raises on it when the domains of the
    report are gathered, outside every [try], and the run ends with a
    traceback after it has said that the HAR was written. *)
Theorem main_exit_code_defect :
  har_exists world_unparsable_url = true /\
  har_scan_urls world_unparsable_url
  = fst (scan_json
           (har_json [ {| entry_url := "https://www.givesendgo.com/help-anna";
                          request_headers := [];
                          response_headers :=
                            [("Location", "https://checkout.stripe.com]")]
                       |} ])) /\
  main world_unparsable_url
  = Some (Traceback (ValueError "https://checkout.stripe.com]")
            [ InfoHarPath (har_path "help-anna");
              InfoOpening "https://www.givesendgo.com/help-anna";
              InfoLoaded; InfoReady; DebugPageClosed; InfoFlushing;
              InfoHarWritten (har_path "help-anna") 2048 ]) /\
  option_map exit_status (main world_unparsable_url) = Some 1.
Proof.
  assert (E : main world_unparsable_url
              = Some (Traceback (ValueError "https://checkout.stripe.com]")
                        [ InfoHarPath (har_path "help-anna");
                          InfoOpening "https://www.givesendgo.com/help-anna";
                          InfoLoaded; InfoReady; DebugPageClosed;
                          InfoFlushing;
                          InfoHarWritten (har_path "help-anna") 2048 ]))
    by reflexivity.
  repeat split; try reflexivity; try exact E.
Qed.

(** * Further properties of the code *)

(** ** Labels of a host *)

Lemma join_cons_suffix sep (x : string) (l : list string) :
  exists q, join sep (x :: l) = q ++ join sep l.
Proof.
  destruct l as [|y l].
  - exists x. simpl. now rewrite append_nil_r.
  - exists (x ++ sep). cbn [join]. now rewrite append_assoc.
Qed.

Lemma join_skipn_suffix sep n (l : list string) :
  exists q, join sep l = q ++ join sep (skipn n l).
Proof.
  revert l. induction n as [|n IH]; intros l.
  - now exists "".
  - destruct l as [|x l]; [now exists ""|].
    destruct (join_cons_suffix sep x l) as [q Hq].
    destruct (IH l) as [q' Hq']. exists (q ++ q').
    cbn [skipn]. now rewrite Hq, Hq', append_assoc.
Qed.

(** Splitting and joining again gives the string back. *)
Lemma join_split sep (s : string) : join (String sep "") (split sep s) = s.
Proof.
  induction s as [|c s IH]; [reflexivity|]. cbn [split].
  pose proof (split_not_nil sep s) as Hne.
  destruct (Ascii.eqb_spec c sep) as [->|N].
  - destruct (split sep s) as [|p ps]; [contradiction|].
    change (join (String sep "") ("" :: p :: ps))
      with (String sep (join (String sep "") (p :: ps))).
    now rewrite IH.
  - destruct (split sep s) as [|p ps]; [contradiction|].
    destruct ps as [|p' ps]; cbn [join append] in *; now rewrite IH.
Qed.

(** No part of a split holds the separator. *)
Lemma split_parts_no_sep sep (s : string) :
  Forall (fun x => all_chars (fun c => negb (c =? sep)%char) x = true)
         (split sep s).
Proof.
  induction s as [|c s IH]; cbn [split].
  - now repeat constructor.
  - destruct (c =? sep)%char eqn:E; [now constructor|].
    destruct (split sep s) as [|p ps]; [repeat constructor; simpl; now rewrite E|].
    inversion IH; subst. constructor; [|assumption].
    simpl. now rewrite E.
Qed.

Lemma split_append_sep sep (x r : string) :
  all_chars (fun c => negb (c =? sep)%char) x = true ->
  split sep (x ++ String sep r) = x :: split sep r.
Proof.
  intros H. induction x as [|c x IH]; cbn [append split].
  - now rewrite Ascii.eqb_refl.
  - simpl in H. apply andb_true_iff in H as [Hc Hx].
    apply negb_true_iff in Hc. rewrite Hc, (IH Hx). reflexivity.
Qed.

Lemma split_no_sep sep (x : string) :
  all_chars (fun c => negb (c =? sep)%char) x = true -> split sep x = [x].
Proof.
  intros H. induction x as [|c x IH]; [reflexivity|]. cbn [split].
  simpl in H. apply andb_true_iff in H as [Hc Hx].
  apply negb_true_iff in Hc. now rewrite Hc, (IH Hx).
Qed.

(** Joining parts that are free of the separator and splitting again
    gives the parts back. *)
Lemma split_join sep (l : list string) :
  l <> [] ->
  Forall (fun x => all_chars (fun c => negb (c =? sep)%char) x = true) l ->
  split sep (join (String sep "") l) = l.
Proof.
  intros Hne H. induction H as [|x l Hx Hl IH]; [contradiction|].
  destruct l as [|y l].
  - now apply split_no_sep.
  - change (join (String sep "") (x :: y :: l))
      with (x ++ String sep (join (String sep "") (y :: l))).
    rewrite (split_append_sep _ _ _ Hx), IH; [reflexivity | discriminate].
Qed.

Lemma skipn_not_nil {A} n (l : list A) : n < length l -> skipn n l <> [].
Proof.
  revert l. induction n as [|n IH]; intros [|x l] H; simpl in *;
    try lia; try discriminate.
  apply IH. lia.
Qed.

(** The last-two-labels branch of [reg_domain], on its own. *)
Lemma naive_labels (h : string) :
  split "." (if (2 <=? length (split "." h))%nat
             then join "." (slice_last 2 (split "." h)) else h)
  = slice_last 2 (split "." h).
Proof.
  destruct (2 <=? length (split "." h))%nat eqn:E.
  - apply Nat.leb_le in E. apply split_join.
    + apply skipn_not_nil. lia.
    + apply Forall_skipn, split_parts_no_sep.
  - apply Nat.leb_gt in E. unfold slice_last.
    replace (length (split "." h) - 2) with 0 by lia. reflexivity.
Qed.

(** X1: without the resolver the result of [reg_domain] is a tail of the
    lowercased host: nothing is added and nothing inside is changed. *)
Theorem reg_domain_is_suffix (host : string) :
  exists p, lower host = p ++ reg_domain None host.
Proof.
  unfold reg_domain, lstrip.
  destruct (lstrip_by_suffix (fun c => mem_char c "www.") (lower host))
    as [a Ha].
  set (h := lstrip_by _ (lower host)) in *.
  destruct (2 <=? length (split "." h))%nat.
  - destruct (join_skipn_suffix "." (length (split "." h) - 2)
                                (split "." h)) as [q Hq].
    rewrite join_split in Hq. exists (a ++ q). unfold slice_last.
    now rewrite append_assoc, <- Hq.
  - now exists a.
Qed.

(** X2: without the resolver the result of [reg_domain] has at most two
    dot-separated labels, and they are the last two labels of the host
    once it is lowercased and left-stripped. *)
Theorem reg_domain_two_labels (host : string) :
  split "." (reg_domain None host)
  = slice_last 2 (split "." (lstrip "www." (lower host))) /\
  1 <= length (split "." (reg_domain None host)) <= 2.
Proof.
  assert (E : split "." (reg_domain None host)
              = slice_last 2 (split "." (lstrip "www." (lower host)))).
  { unfold reg_domain. apply naive_labels. }
  split; [exact E|]. rewrite E. unfold slice_last.
  set (l := split "." (lstrip "www." (lower host))).
  assert (Hne : l <> []) by apply split_not_nil.
  rewrite length_skipn. destruct l as [|x l']; [contradiction|].
  cbn [length]. lia.
Qed.

(** X3: a lowercase host of at most two labels that begins with neither
    'w' nor '.' is its own registrable domain. *)
Theorem reg_domain_fixes_registrable (host : string) :
  is_lowercase host = true ->
  begins_with "w" host = false -> begins_with "." host = false ->
  length (split "." host) <= 2 ->
  reg_domain None host = host.
Proof.
  intros Hl Hw Hd Hlen. unfold reg_domain.
  rewrite (lower_fixed _ Hl).
  assert (Hstrip : lstrip "www." host = host).
  { apply lstrip_by_none. destruct host as [|c r]; [exact I|].
    simpl in *. now rewrite Hw, Hd. }
  rewrite Hstrip.
  destruct (2 <=? length (split "." host))%nat eqn:E; [|reflexivity].
  apply Nat.leb_le in E. unfold slice_last.
  replace (length (split "." host) - 2) with 0 by lia.
  apply join_split.
Qed.

Lemma reg_domain_fixes_registrable_witness :
  reg_domain None "stripe.com" = "stripe.com".
Proof.
  apply reg_domain_fixes_registrable.
  - reflexivity.
  - reflexivity.
  - reflexivity.
  - simpl. lia.
Defined.

(** ** The slug and the paths derived from it *)

Lemma take_class_prefix (s : string) : exists r, s = take_class s ++ r.
Proof.
  induction s as [|c s [r IH]]; [now exists ""|]. cbn [take_class].
  destruct (is_delim c).
  - now exists (String c s).
  - exists r. cbn [append]. now rewrite <- IH.
Qed.

Lemma match_slug_at_inside (s g : string) :
  match_slug_at s = Some g -> exists l q, s = l ++ g ++ q.
Proof.
  unfold match_slug_at. intros H.
  destruct (match_literal_ci SLUG_LITERAL s) as [rest|] eqn:Em;
    [|discriminate].
  apply match_literal_ci_inv in Em as (l & -> & _).
  destruct (take_class_prefix rest) as [q Hq].
  destruct (take_class rest) as [|c g'] eqn:Et; [discriminate|].
  injection H as <-. exists l, q. now rewrite <- Hq.
Qed.

Lemma re_search_slug_inside (s g : string) :
  re_search_slug s = Some g -> exists p q, s = p ++ g ++ q.
Proof.
  induction s as [|x s IH]; [discriminate|]. cbn [re_search_slug].
  destruct (match_slug_at (String x s)) as [g'|] eqn:E.
  - intros H. injection H as <-. now apply match_slug_at_inside.
  - intros H. destruct (IH H) as (p & q & ->).
    now exists (String x p), q.
Qed.

(** X4: the slug is a contiguous piece of the target, whether the pattern
    matched or the target was only trimmed. *)
Theorem extract_slug_inside_target (target : string) :
  exists p q, target = p ++ extract_slug target ++ q.
Proof.
  unfold extract_slug. destruct (re_search_slug target) as [g|] eqn:E.
  - now apply re_search_slug_inside.
  - apply strip_inside.
Qed.

(** X5: when the pattern matches, the slug is not empty and holds none
    of '/', '?', '#'. *)
Theorem extract_slug_matched_shape (target : string) :
  contains_slug_pattern target ->
  extract_slug target <> "" /\
  all_chars (fun c => negb (is_delim c)) (extract_slug target) = true.
Proof.
  intros H. unfold extract_slug.
  destruct (re_search_slug target) as [g|] eqn:E.
  - now apply re_search_slug_no_delim in E.
  - now apply re_search_slug_none in E.
Qed.

Lemma extract_slug_matched_shape_witness :
  extract_slug "GIVESENDGO.COM/help-anna#share" <> "" /\
  all_chars (fun c => negb (is_delim c))
            (extract_slug "GIVESENDGO.COM/help-anna#share") = true.
Proof.
  apply extract_slug_matched_shape.
  exists "", "GIVESENDGO.COM/", "h"%char, "elp-anna#share".
  repeat split; reflexivity.
Defined.

(** X6: the URL that [main] opens for a slug free of '/', '?', '#' leads
    back to that slug; so for a target that matches the pattern,
    normalising the opened URL gives the slug again. *)
Theorem target_url_round_trip :
  (forall slug,
     slug <> "" ->
     all_chars (fun c => negb (is_delim c)) slug = true ->
     extract_slug (target_url slug) = slug) /\
  (forall target,
     contains_slug_pattern target ->
     extract_slug (target_url (extract_slug target)) = extract_slug target).
Proof.
  assert (G : forall slug,
             slug <> "" ->
             all_chars (fun c => negb (is_delim c)) slug = true ->
             extract_slug (target_url slug) = slug).
  { intros slug Hne Hc. unfold extract_slug, target_url.
    change ("https://www.givesendgo.com/" ++ slug)
      with ("https://www." ++ "givesendgo.com/" ++ slug).
    rewrite <- (append_nil_r slug) at 1.
    rewrite re_search_slug_first; try assumption; try reflexivity.
    apply occurs_before_sound. rewrite append_nil_r. reflexivity. }
  split; [exact G|].
  intros target H. destruct (extract_slug_matched_shape target H) as [Hne Hc].
  now apply G.
Qed.

Lemma target_url_round_trip_witness :
  extract_slug (target_url "help-anna") = "help-anna".
Proof.
  apply (proj1 target_url_round_trip).
  - discriminate.
  - reflexivity.
Defined.

Lemma lstrip_by_all p (s : string) :
  all_chars p s = true -> lstrip_by p s = "".
Proof.
  induction s as [|c s IH]; [reflexivity|]. simpl. intros H.
  apply andb_true_iff in H as [Hc Hs]. now rewrite Hc, IH.
Qed.

(** X7: a target made of blanks only, the empty one included, gives the
    empty slug; [main] then opens the site's front page. *)
Theorem extract_slug_blank_target (target : string) :
  all_chars is_space target = true ->
  extract_slug target = "" /\
  target_url (extract_slug target) = "https://www.givesendgo.com/".
Proof.
  intros H.
  assert (E : extract_slug target = "").
  { rewrite extract_slug_no_pattern.
    - unfold strip. now rewrite (lstrip_by_all _ _ H).
    - apply no_slash_no_pattern. revert H. apply all_chars_impl.
      intros c. by_cases_on_char c. }
  split; [exact E | now rewrite E].
Qed.

Lemma extract_slug_blank_target_witness :
  extract_slug "   " = "" /\
  target_url (extract_slug "   ") = "https://www.givesendgo.com/".
Proof. apply extract_slug_blank_target. reflexivity. Defined.

Lemma all_chars_false_split p (s : string) :
  all_chars p s = false ->
  exists a c b, s = a ++ String c b /\ all_chars p a = true /\ p c = false.
Proof.
  induction s as [|x s IH]; [discriminate|]. simpl.
  destruct (p x) eqn:Hx.
  - intros H. destruct (IH H) as (a & c & b & -> & Ha & Hc).
    exists (String x a), c, b. simpl. now rewrite Hx.
  - intros _. now exists "", x, s.
Qed.

(** The last part of a split takes up what is appended, when that holds
    no separator. *)
Lemma split_append_tail sep (b t : string) :
  all_chars (fun c => negb (c =? sep)%char) t = true ->
  exists l x, split sep (b ++ t) = (l ++ [(x ++ t)%string])%list.
Proof.
  intros Ht. induction b as [|c b (l & x & IH)]; cbn [append split].
  - exists [], "". now rewrite (split_no_sep _ _ Ht).
  - rewrite IH. destruct (c =? sep)%char.
    + now exists ("" :: l), x.
    + destruct l as [|p ps].
      * now exists [], (String c x).
      * now exists (String c p :: ps), x.
Qed.

Lemma removelast_length {A} (l : list A) :
  length (removelast l) = length l - 1.
Proof.
  induction l as [|x l IH]; [reflexivity|].
  destruct l as [|y l]; [reflexivity|].
  change (removelast (x :: y :: l)) with (x :: removelast (y :: l)).
  cbn [length] in *. lia.
Qed.

(** The components that [Path] keeps. *)
Lemma kept_component (x : string) :
  2 <= String.length x -> negb (x =? "") && negb (x =? ".") = true.
Proof.
  intros H. destruct x as [|c [|d x]]; simpl in H; try lia.
  simpl. destruct (c =? ".")%char; reflexivity.
Qed.

Lemma har_file_name_parts (slug : string) :
  parse_root (har_file_name slug) = "" /\
  2 <= String.length (har_file_name slug).
Proof.
  unfold har_file_name. cbn [append]. split; [reflexivity|].
  cbn [String.length]. lia.
Qed.

(** X8: the HAR file lies directly in the output directory exactly when
    the slug holds no '/'; its name is then pmtproc_<slug>_monitor.har. *)
Theorem har_path_direct_child (slug : string) :
  (all_chars (fun c => negb (c =? "/")%char) slug = true ->
   har_path slug
   = {| root := "/";
        parts := (parts HAR_DIR ++ [har_file_name slug])%list |}) /\
  (parent (har_path slug) = HAR_DIR <->
   all_chars (fun c => negb (c =? "/")%char) slug = true).
Proof.
  destruct (har_file_name_parts slug) as [Hroot Hlen].
  assert (Hjoin : har_path slug
                  = {| root := "/";
                       parts := (parts HAR_DIR
                                 ++ parts (parse_path (har_file_name slug)))%list |}).
  { unfold har_path, joinpath. cbn [parse_path root]. now rewrite Hroot. }
  assert (Hpos : all_chars (fun c => negb (c =? "/")%char) slug = true ->
                 parts (parse_path (har_file_name slug)) = [har_file_name slug]).
  { intros H. cbn [parse_path parts]. rewrite split_no_sep.
    - cbn [filter]. now rewrite (kept_component _ Hlen).
    - unfold har_file_name. now rewrite !all_chars_append, H. }
  split; [intros H; now rewrite Hjoin, (Hpos H)|].
  split.
  - intros Hparent.
    destruct (all_chars _ slug) eqn:E; [reflexivity|]. exfalso.
    apply all_chars_false_split in E as (a & c & b & -> & Ha & Hc).
    apply negb_false_iff, Ascii.eqb_eq in Hc. subst c.
    assert (Hsplit : exists l x,
               split "/" (har_file_name (a ++ String "/" b))
               = ("pmtproc_" ++ a) :: (l ++ [(x ++ "_monitor.har")%string])%list).
    { unfold har_file_name.
      destruct (split_append_tail "/" b "_monitor.har" eq_refl)
        as (l & x & Hl).
      exists l, x. rewrite <- Hl.
      replace ("pmtproc_" ++ (a ++ String "/" b) ++ "_monitor.har")
        with (("pmtproc_" ++ a) ++ String "/" (b ++ "_monitor.har"))
        by (now rewrite !append_assoc).
      apply split_append_sep. now rewrite all_chars_append, Ha. }
    destruct Hsplit as (l & x & Hsplit).
    apply (f_equal (fun p => length (parts p))) in Hparent.
    rewrite Hjoin in Hparent. cbn [parent parts parse_path] in Hparent.
    rewrite removelast_length, length_app, Hsplit in Hparent.
    cbn [filter] in Hparent.
    rewrite kept_component in Hparent
      by (rewrite length_append; cbn [String.length]; lia).
    rewrite filter_app in Hparent. cbn [filter] in Hparent.
    rewrite kept_component in Hparent
      by (rewrite length_append; cbn [String.length]; lia).
    cbn [length] in Hparent. rewrite length_app in Hparent.
    change (length (parts HAR_DIR)) with 5 in Hparent.
    cbn [length] in Hparent. lia.
  - intros H. rewrite Hjoin, (Hpos H). unfold parent. cbn [root parts].
    now rewrite removelast_last.
Qed.

Lemma har_path_direct_child_witness :
  har_path "help-anna"
  = {| root := "/";
       parts := (parts HAR_DIR ++ [har_file_name "help-anna"])%list |}.
Proof. apply (proj1 (har_path_direct_child "help-anna")). reflexivity. Defined.

(** ** The payment pattern *)

Lemma eqb_ci_char_lower (a c : ascii) :
  eqb_ci_char a (lower_char c) = eqb_ci_char a c.
Proof. unfold eqb_ci_char. now rewrite lower_char_idem. Qed.

Lemma match_literal_ci_lower (lit s : string) :
  match_literal_ci lit (lower s) = option_map lower (match_literal_ci lit s).
Proof.
  revert s. induction lit as [|a lit IH]; intros s; [reflexivity|].
  destruct s as [|c s]; [reflexivity|]. cbn [lower match_literal_ci].
  rewrite eqb_ci_char_lower. destruct (eqb_ci_char a c); [apply IH|reflexivity].
Qed.

Lemma contains_ci_lower (lit s : string) :
  contains_ci lit (lower s) = contains_ci lit s.
Proof.
  induction s as [|c s IH].
  - reflexivity.
  - change (lower (String c s)) with (String (lower_char c) (lower s)).
    cbn [contains_ci].
    change (String (lower_char c) (lower s)) with (lower (String c s)).
    rewrite match_literal_ci_lower, IH.
    now destruct (match_literal_ci lit (String c s)).
Qed.

(** [contains_ci] finds the literal exactly where a piece of the string
    equals it up to case. *)
Lemma contains_ci_iff (lit s : string) :
  contains_ci lit s = true <->
  exists a l b, s = a ++ l ++ b /\ eqb_ci l lit = true.
Proof.
  split.
  - induction s as [|c s IH]; cbn [contains_ci].
    + destruct (match_literal_ci lit "") as [r|] eqn:E; [|discriminate].
      intros _. apply match_literal_ci_inv in E as (l & Hs & Hl).
      now exists "", l, r.
    + destruct (match_literal_ci lit (String c s)) as [r|] eqn:E.
      * intros _. apply match_literal_ci_inv in E as (l & Hs & Hl).
        now exists "", l, r.
      * intros H. destruct (IH H) as (a & l & b & -> & Hl).
        now exists (String c a), l, b.
  - intros (a & l & b & -> & Hl). induction a as [|c a IH].
    + cbn [append].
      pose proof (match_literal_ci_append lit l b Hl) as E.
      destruct (l ++ b); cbn [contains_ci]; now rewrite E.
    + cbn [append contains_ci]. rewrite IH.
      now destruct (match_literal_ci lit _).
Qed.

Lemma lower_eq_append_inv (l x y : string) :
  lower l = x ++ y ->
  exists l1 l2, l = l1 ++ l2 /\ lower l1 = x /\ lower l2 = y.
Proof.
  revert l. induction x as [|c x IH]; intros l H.
  - now exists "", l.
  - destruct l as [|d l]; [discriminate|]. cbn [lower append] in H.
    injection H as Hc Hl. destruct (IH _ Hl) as (l1 & l2 & -> & H1 & H2).
    exists (String d l1), l2. cbn [lower append]. now rewrite Hc, H1.
Qed.

(** A literal found inside another literal is found wherever that one
    is. *)
Lemma contains_ci_trans (b a s : string) :
  contains_ci b a = true -> contains_ci a s = true -> contains_ci b s = true.
Proof.
  rewrite !contains_ci_iff.
  intros (a1 & l' & a2 & -> & Hl') (x & l & y & -> & Hl).
  unfold eqb_ci in *. apply String.eqb_eq in Hl, Hl'.
  rewrite !lower_append in Hl.
  apply lower_eq_append_inv in Hl as (l1 & l23 & -> & _ & H23).
  apply lower_eq_append_inv in H23 as (l2 & l3 & -> & H2 & _).
  exists (x ++ l1), l2, (l3 ++ y). split.
  - now rewrite !append_assoc.
  - apply String.eqb_eq. congruence.
Qed.

(** X9: [PAYMENT_RE] ignores letter case: two URLs that differ in case
    only are both matched or both not. *)
Theorem PAYMENT_RE_ignores_case (u v : string) :
  eqb_ci u v = true -> PAYMENT_RE_search u = PAYMENT_RE_search v.
Proof.
  unfold eqb_ci, PAYMENT_RE_search. intros H. apply String.eqb_eq in H.
  induction PAYMENT_LITERALS as [|lit lits IH]; [reflexivity|].
  cbn [existsb]. rewrite IH. f_equal.
  now rewrite <- (contains_ci_lower lit u), <- (contains_ci_lower lit v), H.
Qed.

Lemma PAYMENT_RE_ignores_case_witness :
  PAYMENT_RE_search "HTTPS://JS.STRIPE.COM/V3"
  = PAYMENT_RE_search "https://js.stripe.com/v3".
Proof. apply PAYMENT_RE_ignores_case. reflexivity. Defined.

(** X10: [PAYMENT_RE] is a search: a string that holds a matched string
    is matched. *)
Theorem PAYMENT_RE_inside (p s q : string) :
  PAYMENT_RE_search s = true -> PAYMENT_RE_search (p ++ s ++ q) = true.
Proof.
  unfold PAYMENT_RE_search. rewrite !existsb_exists.
  intros (lit & Hin & H). exists lit. split; [exact Hin|].
  apply contains_ci_iff in H as (a & l & b & -> & Hl).
  apply contains_ci_iff. exists (p ++ a), l, (b ++ q).
  split; [now rewrite !append_assoc | exact Hl].
Qed.

Lemma PAYMENT_RE_inside_witness :
  PAYMENT_RE_search ("https://shop.example/" ++ "Checkout" ++ "?step=2")
  = true.
Proof. apply PAYMENT_RE_inside. reflexivity. Defined.

(** X11: only thirty-seven alternatives of [PAYMENT_RE] matter: each of
    the others holds one of them, so the pattern matches exactly where
    one of the thirty-seven does. *)
Theorem PAYMENT_RE_core (url : string) :
  PAYMENT_RE_search url
  = existsb (fun lit => contains_ci lit url) PAYMENT_CORE.
Proof.
  unfold PAYMENT_RE_search. apply eq_true_iff_eq.
  rewrite !existsb_exists. split.
  - intros (a & Ha & H).
    assert (Hsub : forallb (fun a => existsb (fun b => contains_ci b a)
                                             PAYMENT_CORE)
                           PAYMENT_LITERALS = true) by (vm_compute; reflexivity).
    rewrite forallb_forall in Hsub. specialize (Hsub a Ha).
    apply existsb_exists in Hsub as (b & Hb & Hba).
    exists b. split; [exact Hb|]. now apply contains_ci_trans with a.
  - intros (b & Hb & H). exists b. split; [|exact H].
    assert (Hsub : forallb (fun b => existsb (String.eqb b) PAYMENT_LITERALS)
                           PAYMENT_CORE = true) by (vm_compute; reflexivity).
    rewrite forallb_forall in Hsub. specialize (Hsub b Hb).
    apply existsb_exists in Hsub as (a & Ha & Hab).
    apply String.eqb_eq in Hab. now subst.
Qed.

(** ** What the listeners record *)

Lemma dispatch_matched (e : Event) (st : Session) :
  matched_urls (dispatch e st)
  = (matched_urls st ++ filter PAYMENT_RE_search (request_urls [e]))%list.
Proof.
  destruct e; cbn [dispatch request_urls filter];
    try (now rewrite app_nil_r).
  unfold capture_request. destruct (PAYMENT_RE_search url); [reflexivity|].
  now rewrite app_nil_r.
Qed.

Lemma request_urls_cons (e : Event) (evs : list Event) :
  request_urls (e :: evs) = (request_urls [e] ++ request_urls evs)%list.
Proof. destruct e; reflexivity. Qed.

Lemma dispatch_all_matched (evs : list Event) (st : Session) :
  matched_urls (fold_left (fun s e => dispatch e s) evs st)
  = (matched_urls st ++ filter PAYMENT_RE_search (request_urls evs))%list.
Proof.
  revert st. induction evs as [|e evs IH]; intros st.
  - simpl. now rewrite app_nil_r.
  - cbn [fold_left]. rewrite IH, dispatch_matched, (request_urls_cons e evs).
    now rewrite filter_app, app_assoc.
Qed.

Lemma wait_loop_matched (evs : list Event) (st st' : Session) rest :
  wait_loop evs st = Some (st', rest) ->
  (matched_urls st' ++ filter PAYMENT_RE_search (request_urls rest))%list
  = (matched_urls st ++ filter PAYMENT_RE_search (request_urls evs))%list.
Proof.
  revert st. induction evs as [|e evs IH]; intros st; cbn [wait_loop];
    destruct (stop_event st) eqn:Hs; try discriminate;
    try (intros H; injection H as <- <-; reflexivity).
  destruct e;
    try (intros H; apply IH in H; rewrite H, dispatch_matched,
           (request_urls_cons _ evs), filter_app, app_assoc; reflexivity).
  intros H. injection H as <- <-. reflexivity.
Qed.

(** X12: when the session is over, [matched_urls] holds exactly the URLs
    of the requests that [PAYMENT_RE] matches, each as often as it was
    requested and in the order of the requests. *)
Theorem run_session_records_matches (w : World) (slug : string)
    (st : Session) :
  run_session w slug = Some st ->
  matched_urls st = filter PAYMENT_RE_search (request_urls (events w)) /\
  Forall (fun u => PAYMENT_RE_search u = true) (matched_urls st).
Proof.
  intros H.
  assert (E : matched_urls st
              = filter PAYMENT_RE_search (request_urls (events w))).
  { unfold run_session in H. destruct (goto_error w) as [e|].
    - injection H as <-. unfold teardown. now rewrite dispatch_all_matched.
    - destruct (wait_loop _ _) as [[st' rest]|] eqn:Ew; [|discriminate].
      injection H as <-. unfold teardown. rewrite dispatch_all_matched.
      cbn [matched_urls safe_close_context print].
      now rewrite (wait_loop_matched _ _ _ _ Ew). }
  split; [exact E|]. rewrite E. apply Forall_forall.
  intros u Hu. now apply filter_In in Hu.
Qed.

Lemma run_session_records_matches_witness :
  exists st,
    run_session world_stripe_checkout "help-anna" = Some st /\
    matched_urls st = ["https://js.stripe.com/v3"].
Proof.
  eexists. split; [reflexivity|].
  apply (proj1 (run_session_records_matches world_stripe_checkout
                  "help-anna" _ eq_refl)).
Defined.

Lemma stdout_print_all (ms : list Msg) (st : Session) :
  stdout (print_all ms st) = (stdout st ++ ms)%list.
Proof.
  unfold print_all. revert st. induction ms as [|m ms IH]; intros st.
  - simpl. now rewrite app_nil_r.
  - cbn [fold_left]. rewrite IH. cbn [print stdout].
    now rewrite <- app_assoc.
Qed.

Lemma matched_append_all (us : list string) (st : Session) :
  matched_urls (fold_left (fun s u => matched_append u s) us st)
  = (matched_urls st ++ us)%list.
Proof.
  revert st. induction us as [|u us IH]; intros st.
  - simpl. now rewrite app_nil_r.
  - cbn [fold_left]. rewrite IH. cbn [matched_append matched_urls].
    now rewrite <- app_assoc.
Qed.

Lemma scan_har_matched (w : World) (st : Session) :
  matched_urls (scan_har w st)
  = (matched_urls st ++ (if har_exists w then har_scan_urls w else []))%list.
Proof.
  unfold scan_har. destruct (har_exists w); [|now rewrite app_nil_r].
  destruct (har_scan_error w); cbn [print matched_urls];
    apply matched_append_all.
Qed.

(** Until the report is built nothing of it is printed. *)
Lemma print_report_lines (m : Msg) (st : Session) :
  is_report_line m = false ->
  filter is_report_line (stdout (print m st))
  = filter is_report_line (stdout st).
Proof.
  intros H. cbn [print stdout]. rewrite filter_app. cbn [filter].
  now rewrite H, app_nil_r.
Qed.

Lemma dispatch_report_lines (e : Event) (st : Session) :
  filter is_report_line (stdout (dispatch e st))
  = filter is_report_line (stdout st).
Proof.
  destruct e; cbn [dispatch]; try reflexivity.
  - unfold capture_request. now destruct (PAYMENT_RE_search url).
  - unfold _on_page_close. cbn [stop_event_set safe_close_context stdout].
    now apply print_report_lines.
  - unfold _on_browser_disconnected. cbn [stop_event_set stdout].
    now apply print_report_lines.
Qed.

Lemma dispatch_all_report_lines (evs : list Event) (st : Session) :
  filter is_report_line
         (stdout (fold_left (fun s e => dispatch e s) evs st))
  = filter is_report_line (stdout st).
Proof.
  revert st. induction evs as [|e evs IH]; intros st; [reflexivity|].
  cbn [fold_left]. now rewrite IH, dispatch_report_lines.
Qed.

Lemma wait_loop_report_lines (evs : list Event) (st st' : Session) rest :
  wait_loop evs st = Some (st', rest) ->
  filter is_report_line (stdout st') = filter is_report_line (stdout st).
Proof.
  revert st. induction evs as [|e evs IH]; intros st; cbn [wait_loop];
    destruct (stop_event st); try discriminate;
    try (intros H; injection H as <- _; reflexivity).
  destruct e;
    try (intros H; apply IH in H; now rewrite H, dispatch_report_lines).
  intros H. injection H as <- _. now apply print_report_lines.
Qed.

Lemma run_session_report_lines (w : World) (slug : string) (st : Session) :
  run_session w slug = Some st -> filter is_report_line (stdout st) = [].
Proof.
  unfold run_session, teardown. destruct (goto_error w) as [e|].
  - intros H. injection H as <-. rewrite dispatch_all_report_lines.
    reflexivity.
  - destruct (wait_loop _ _) as [[st' rest]|] eqn:E; [|discriminate].
    intros H. injection H as <-. rewrite dispatch_all_report_lines.
    cbn [safe_close_context stdout].
    rewrite print_report_lines by reflexivity.
    now rewrite (wait_loop_report_lines _ _ _ _ E).
Qed.

Lemma scan_har_report_lines (w : World) (st : Session) :
  filter is_report_line (stdout (scan_har w st))
  = filter is_report_line (stdout st).
Proof.
  unfold scan_har. destruct (har_exists w); [|reflexivity].
  assert (H : forall us s,
             stdout (fold_left (fun s u => matched_append u s) us s)
             = stdout s).
  { induction us as [|u us IH]; intros s0; [reflexivity|].
    cbn [fold_left]. now rewrite IH. }
  destruct (har_scan_error w).
  - rewrite print_report_lines by reflexivity. now rewrite H.
  - now rewrite H.
Qed.

(** The state in which the report is built. *)
Lemma before_report (w : World) (st : Session) (m : Msg) :
  run_session w (extract_slug (nth 1 (argv w) "")) = Some st ->
  is_report_line m = false ->
  matched_urls (scan_har w (print m st)) = final_matched w /\
  filter is_report_line (stdout (scan_har w (print m st))) = [].
Proof.
  intros Hrun Hm. split.
  - rewrite scan_har_matched. cbn [print matched_urls].
    now rewrite (proj1 (run_session_records_matches _ _ _ Hrun)).
  - rewrite scan_har_report_lines, (print_report_lines _ _ Hm).
    now apply run_session_report_lines with w (extract_slug (nth 1 (argv w) "")).
Qed.

(** [main] once an argument is given. *)
Lemma main_with_argument (w : World) :
  2 <= length (argv w) ->
  main w
  = match snd (kill_stale_chromium (os_before w)) with
    | Some e =>
        Some (Traceback (ReapError e)
                [InfoHarPath
                   (har_path (extract_slug (nth 1 (argv w) "")))])
    | None =>
        match run_session w (extract_slug (nth 1 (argv w) "")) with
        | None => None
        | Some st =>
            match snd (kill_stale_chromium (os_after w)) with
            | Some e => Some (Traceback (ReapError e) (stdout st))
            | None =>
                let st1 :=
                  scan_har w
                    (match har_file w with
                     | Some size =>
                         print (InfoHarWritten
                                  (har_path
                                     (extract_slug
                                        (nth 1 (argv w) ""))) size)
                               st
                     | None =>
                         print (ErrorHarMissing
                                  (har_path
                                     (extract_slug
                                        (nth 1 (argv w) ""))))
                               st
                     end) in
                match matched_urls st1 with
                | _ :: _ =>
                    match find (urlparse_raises w)
                               (unique_urls (matched_urls st1)) with
                    | Some u =>
                        Some (Traceback (ValueError u) (stdout st1))
                    | None =>
                        Some (SysExit
                                {| output :=
                                     stdout
                                       (print_all
                                          (report w
                                             (matched_urls st1))
                                          st1);
                                   exit_code :=
                                     if har_exists w then 0 else 1
                                |})
                    end
                | [] =>
                    Some (SysExit
                            {| output :=
                                 stdout (print NoMatches st1);
                               exit_code :=
                                 if har_exists w then 0 else 1 |})
                end
            end
        end
    end.
Proof. intros Hargs. unfold main. now rewrite (proj2 (Nat.ltb_ge _ _) Hargs). Qed.

(** X13: a run that reaches [sys.exit] closes its output with the report
    built from the matching live requests followed by what the scan of
    the HAR file added, or with the no-match notice when there is
    neither; a run that dies in [urlparse] has printed no line of the
    report, and the URL it dies on is one of those to be listed. *)
Theorem main_reports_final_matched (w : World) :
  2 <= length (argv w) ->
  (forall o,
     main w = Some (SysExit o) ->
     exists before,
       output o
       = (before ++ match final_matched w with
                    | [] => [NoMatches]
                    | _ :: _ => report w (final_matched w)
                    end)%list) /\
  (forall u printed,
     main w = Some (Traceback (ValueError u) printed) ->
     filter is_report_line printed = [] /\
     In u (unique_urls (final_matched w)) /\
     urlparse_raises w u = true).
Proof.
  intros Hargs. rewrite (main_with_argument w Hargs).
  destruct (snd (kill_stale_chromium (os_before w)));
    [split; intros; discriminate|].
  destruct (run_session w _) as [st|] eqn:Hrun;
    [|split; intros; discriminate].
  destruct (snd (kill_stale_chromium (os_after w)));
    [split; intros; discriminate|].
  assert (Hst : exists st1,
             matched_urls st1 = final_matched w /\
             filter is_report_line (stdout st1) = [] /\
             st1 = scan_har w
                     (match har_file w with
                      | Some size =>
                          print (InfoHarWritten
                                   (har_path
                                      (extract_slug (nth 1 (argv w) "")))
                                   size) st
                      | None =>
                          print (ErrorHarMissing
                                   (har_path
                                      (extract_slug (nth 1 (argv w) ""))))
                                st
                      end)).
  { eexists. split; [|split; [|reflexivity]];
      destruct (har_file w); now apply before_report. }
  destruct Hst as (st1 & Hfin & Hquiet & <-). cbv zeta. rewrite Hfin.
  destruct (final_matched w) as [|x xs] eqn:Ef.
  - split; [|intros; discriminate]. intros o Ho.
    exists (stdout st1). injection Ho as <-. reflexivity.
  - destruct (find (urlparse_raises w) (unique_urls (x :: xs))) as [bad|]
      eqn:Efind.
    + split; [intros; discriminate|]. intros u printed H.
      injection H as <- <-. apply find_some in Efind. now split.
    + split; [|intros; discriminate]. intros o Ho.
      exists (stdout st1). rewrite <- stdout_print_all.
      injection Ho as <-. reflexivity.
Qed.

Lemma main_reports_final_matched_witness :
  filter is_report_line
         [ InfoHarPath (har_path "help-anna");
           InfoOpening "https://www.givesendgo.com/help-anna";
           InfoLoaded; InfoReady; DebugPageClosed; InfoFlushing;
           InfoHarWritten (har_path "help-anna") 2048 ] = [] /\
  In "https://checkout.stripe.com]"
     (unique_urls (final_matched world_unparsable_url)) /\
  urlparse_raises world_unparsable_url "https://checkout.stripe.com]" = true.
Proof.
  apply (proj2 (main_reports_final_matched world_unparsable_url (le_n 2))).
  reflexivity.
Defined.

(** ** The domain table and the URL list *)

Lemma list_sum_cons (x : nat) (l : list nat) :
  list_sum (x :: l) = x + list_sum l.
Proof. reflexivity. Qed.

Lemma list_sum_filter_split (f : string -> nat) (x : string)
    (ks : list string) :
  NoDup ks ->
  list_sum (map f ks)
  = list_sum (map f (filter (fun y => negb (y =? x)) ks))
    + (if in_dec string_dec x ks then f x else 0).
Proof.
  induction ks as [|k ks IH]; intros Hnd; [reflexivity|].
  inversion Hnd as [|? ? Hk Hks]; subst. cbn [map filter].
  rewrite list_sum_cons, (IH Hks).
  destruct (String.eqb_spec k x) as [->|N]; cbn [negb map];
    rewrite ?list_sum_cons.
  - destruct (in_dec string_dec x (x :: ks)) as [_|C]; [|elim C; now left].
    destruct (in_dec string_dec x ks); [contradiction | lia].
  - destruct (in_dec string_dec x ks) as [Hin|Hin];
      destruct (in_dec string_dec x (k :: ks)) as [Hin'|Hin']; try lia.
    + elim Hin'. now right.
    + destruct Hin' as [E|Hin']; [congruence | contradiction].
Qed.

Lemma count_occ_distinct_sum (l : list string) :
  list_sum (map (count_occ string_dec l) (distinct l)) = length l.
Proof.
  induction l as [|x l IH]; [reflexivity|]. cbn [distinct map].
  rewrite list_sum_cons.
  pose proof (list_sum_filter_split (count_occ string_dec l) x (distinct l)
                (distinct_nodup l)) as Hs.
  assert (Hext : map (count_occ string_dec (x :: l))
                     (filter (fun y => negb (y =? x)) (distinct l))
                 = map (count_occ string_dec l)
                       (filter (fun y => negb (y =? x)) (distinct l))).
  { apply map_ext_in. intros k Hk. apply filter_In in Hk as [_ Hk].
    apply negb_true_iff, String.eqb_neq in Hk. cbn [count_occ].
    destruct (string_dec x k); [congruence | reflexivity]. }
  rewrite Hext. cbn [count_occ length].
  destruct (string_dec x x) as [_|C]; [|congruence].
  destruct (in_dec string_dec x (distinct l)) as [Hin|Hin].
  - lia.
  - assert (H0 : count_occ string_dec l x = 0).
    { apply count_occ_not_In. intros C. now apply Hin, distinct_in. }
    lia.
Qed.

(** X14: in the domain table every domain stands once, with a count of
    at least one, and the counts add up to the number of listed URLs
    that have a host. *)
Theorem domain_table_adds_up (w : World) (matched : list string) :
  let table := most_common (domain_counts (_tx w) (netloc_of w) matched) in
  NoDup (map fst table) /\
  Forall (fun e => 1 <= snd e) table /\
  list_sum (map snd table)
  = length (filter (fun u => truthy (netloc_of w u)) (unique_urls matched)).
Proof.
  intros table.
  set (ds := domains (_tx w) (netloc_of w) matched).
  assert (Hp : Permutation table
                 (map (fun k => (k, count_occ string_dec ds k)) (distinct ds))).
  { unfold table, domain_counts, most_common. fold ds.
    rewrite sorted_perm, Counter_spec. reflexivity. }
  repeat split.
  - apply (Permutation_NoDup (l := distinct ds)); [|apply distinct_nodup].
    rewrite Hp, map_map. cbn [fst]. now rewrite map_id.
  - apply Forall_forall. intros e He.
    apply (Permutation_in _ Hp), in_map_iff in He as (k & <- & Hk).
    cbn [snd]. apply (proj1 (distinct_in _ _)) in Hk.
    apply (proj1 (count_occ_In string_dec _ _)) in Hk. lia.
  - rewrite (Permutation_map snd Hp), map_map. cbn [snd].
    rewrite count_occ_distinct_sum. unfold ds, domains.
    now rewrite length_map.
Qed.

(** X15: the URL list of the report depends on which URLs were matched,
    not on how often or in which order. *)
Theorem unique_urls_depends_on_set (l l' : list string) :
  (forall u, In u l <-> In u l') -> unique_urls l = unique_urls l'.
Proof.
  intros H. unfold unique_urls, set_of.
  apply (strongly_sorted_unique (fun a b => String.leb a b = true)).
  - intros x y. apply String.leb_antisym.
  - apply sorted_ordered; [apply String.leb_total | apply string_leb_trans].
  - apply sorted_ordered; [apply String.leb_total | apply string_leb_trans].
  - apply (Permutation_NoDup (Permutation_sym (sorted_perm _ _))).
    apply distinct_nodup.
  - rewrite !sorted_perm.
    apply NoDup_Permutation; try apply distinct_nodup.
    intros u. rewrite !distinct_in, !filter_In, H. reflexivity.
Qed.

Lemma unique_urls_depends_on_set_witness :
  unique_urls ["https://b.co/pay"; "https://a.co/card"; "https://b.co/pay"]
  = unique_urls ["https://a.co/card"; "https://b.co/pay"].
Proof.
  apply unique_urls_depends_on_set. intros u. simpl. tauto.
Defined.

(** ** URL_RE and the scan of the HAR file *)

Example URL_RE_findall_in_a_header :
  URL_RE_findall "<https://Pay.example/card>; rel=x, HTTP://a.b/c d http://"
  = ["https://Pay.example/card>"; "HTTP://a.b/c"].
Proof. reflexivity. Qed.

Example scan_json_of_a_redirect :
  scan_json (har_json [ {| entry_url := "https://example.com/donate";
                           request_headers := [("Accept", "text/html")];
                           response_headers :=
                             [("Location",
                               "https://checkout.stripe.com/c/pay")] |} ])
  = (["https://checkout.stripe.com/c/pay"], inr tt).
Proof. reflexivity. Qed.

Lemma length_lower (s : string) : String.length (lower s) = String.length s.
Proof. induction s as [|c s IH]; simpl; [reflexivity | now rewrite IH]. Qed.

Lemma eqb_ci_length (a b : string) :
  eqb_ci a b = true -> String.length a = String.length b.
Proof.
  unfold eqb_ci. intros H. apply String.eqb_eq in H.
  now rewrite <- (length_lower a), <- (length_lower b), H.
Qed.

Lemma substring_prefix (a b : string) :
  substring 0 (String.length a) (a ++ b) = a.
Proof.
  induction a as [|c a IH]; simpl.
  - now destruct b.
  - now rewrite IH.
Qed.

Lemma is_url_char_lower (c : ascii) :
  is_url_char (lower_char c) = is_url_char c.
Proof. by_cases_on_char c. Qed.

Lemma take_url_chars_prefix (s : string) :
  exists q, s = take_url_chars s ++ q.
Proof.
  induction s as [|c s [q IH]]; [now exists ""|]. cbn [take_url_chars].
  destruct (is_url_char c).
  - exists q. cbn [append]. now rewrite <- IH.
  - now exists (String c s).
Qed.

Lemma take_url_chars_class (s : string) :
  all_chars is_url_char (take_url_chars s) = true.
Proof.
  induction s as [|c s IH]; [reflexivity|]. cbn [take_url_chars].
  destruct (is_url_char c) eqn:E; [|reflexivity]. simpl. now rewrite E.
Qed.

Lemma take_url_chars_all (s : string) :
  all_chars is_url_char s = true -> take_url_chars s = s.
Proof.
  induction s as [|c s IH]; [reflexivity|]. simpl. intros H.
  apply andb_true_iff in H as [Hc Hs]. now rewrite Hc, IH.
Qed.

(** What one way through the pattern matches: the literal in some case,
    then the run. *)
Lemma match_url_with_inv (lit s m : string) :
  match_url_with lit s = Some m ->
  exists l run q,
    s = l ++ run ++ q /\ m = l ++ run /\ eqb_ci l lit = true /\
    run <> "" /\ all_chars is_url_char run = true.
Proof.
  unfold match_url_with. intros H.
  destruct (match_literal_ci lit s) as [t|] eqn:Em; [|discriminate].
  apply match_literal_ci_inv in Em as (l & -> & Hl).
  destruct (take_url_chars_prefix t) as [q Hq].
  pose proof (take_url_chars_class t) as Hc.
  destruct (take_url_chars t) as [|c run] eqn:Et; [discriminate|].
  injection H as <-. exists l, (String c run), q.
  split; [now rewrite <- Hq|]. split.
  - replace (String.length lit + S (String.length run))
      with (String.length (l ++ String c run))
      by (rewrite length_append, (eqb_ci_length _ _ Hl); reflexivity).
    rewrite Hq, <- append_assoc. apply substring_prefix.
  - repeat split; [exact Hl | discriminate | exact Hc].
Qed.

Lemma literal_is_url_chars (l lit : string) :
  eqb_ci l lit = true -> all_chars is_url_char lit = true ->
  all_chars is_url_char l = true.
Proof.
  unfold eqb_ci. intros H Hlit. apply String.eqb_eq in H.
  rewrite <- (all_chars_lower _ l) by apply is_url_char_lower.
  rewrite H, all_chars_lower by apply is_url_char_lower. exact Hlit.
Qed.

Lemma match_url_at_inv (s m : string) :
  match_url_at s = Some m -> url_shaped m /\ exists q, s = m ++ q.
Proof.
  unfold match_url_at. intros H.
  assert (G : exists lit,
             (lit = "http://" \/ lit = "https://") /\
             match_url_with lit s = Some m).
  { destruct (match_url_with "https://" s) as [m'|] eqn:E.
    - injection H as <-. exists "https://". auto.
    - exists "http://". auto. }
  destruct G as (lit & Hlit & Hm).
  apply match_url_with_inv in Hm as (l & run & q & -> & -> & Hl & Hne & Hc).
  split.
  - exists l, run. split; [reflexivity|]. split.
    + destruct Hlit as [->| ->]; auto.
    + split; [exact Hne|]. rewrite all_chars_append, Hc, andb_true_r.
      apply (literal_is_url_chars _ _ Hl). now destruct Hlit as [->| ->].
  - exists q. now rewrite append_assoc.
Qed.

Lemma findall_from_in (s : string) (k : nat) (m : string) :
  In m (findall_from k s) ->
  url_shaped m /\ exists p q, s = p ++ m ++ q.
Proof.
  revert k. induction s as [|c r IH]; intros k H; [contradiction|].
  cbn [findall_from] in H.
  assert (Hr : forall k', In m (findall_from k' r) ->
                          url_shaped m /\ exists p q, String c r = p ++ m ++ q).
  { intros k' Hk'. destruct (IH _ Hk') as (Hs & p & q & ->).
    split; [exact Hs|]. now exists (String c p), q. }
  destruct k as [|k]; [|now apply Hr with k].
  destruct (match_url_at (String c r)) as [m0|] eqn:E; [|now apply Hr with 0].
  destruct H as [<-|H]; [|now apply Hr with (String.length m0 - 1)].
  apply match_url_at_inv in E as (Hs & q & Hq).
  split; [exact Hs|]. exists "", q. exact Hq.
Qed.

(** X16: every string that [URL_RE.findall] returns lies in the text
    searched, begins with http:// or https:// in some letter case, goes on
    for at least one character and holds no blank, quote, semicolon or
    comma. *)
Theorem URL_RE_findall_shape (s m : string) :
  In m (URL_RE_findall s) ->
  url_shaped m /\ exists p q, s = p ++ m ++ q.
Proof. apply findall_from_in. Qed.

Lemma URL_RE_findall_shape_witness :
  url_shaped "HTTPS://pay.example/card" /\
  exists p q,
    "Link: <HTTPS://pay.example/card ; rel=x>"
    = p ++ "HTTPS://pay.example/card" ++ q.
Proof.
  apply (URL_RE_findall_shape "Link: <HTTPS://pay.example/card ; rel=x>").
  simpl. now left.
Defined.

Lemma findall_from_skip_all (s : string) (k : nat) :
  String.length s <= k -> findall_from k s = [].
Proof.
  revert k. induction s as [|c r IH]; intros k H; [reflexivity|].
  destruct k as [|k]; simpl in H; [lia|]. cbn [findall_from].
  apply IH. lia.
Qed.

Lemma match_url_with_whole (lit l run : string) :
  eqb_ci l lit = true -> run <> "" ->
  all_chars is_url_char run = true ->
  match_url_with lit (l ++ run) = Some (l ++ run).
Proof.
  intros Hl Hne Hc. unfold match_url_with.
  rewrite (match_literal_ci_append _ _ _ Hl), (take_url_chars_all _ Hc).
  destruct run as [|c run]; [contradiction|].
  rewrite <- (eqb_ci_length _ _ Hl), <- length_append.
  now rewrite substring_all.
Qed.

Lemma match_url_with_https_none (l run : string) :
  eqb_ci l "http://" = true -> match_url_with "https://" (l ++ run) = None.
Proof.
  intros Hl. unfold match_url_with.
  destruct (match_literal_ci "https://" (l ++ run)) as [t|] eqn:E;
    [|reflexivity].
  exfalso. apply match_literal_ci_inv in E as (l' & Hs & Hl').
  unfold eqb_ci in *. apply String.eqb_eq in Hl, Hl'.
  apply (f_equal lower) in Hs. rewrite !lower_append, Hl, Hl' in Hs.
  discriminate Hs.
Qed.

(** X17: a text that is one URL and nothing else, such as the value of a
    Location header, is returned whole by [URL_RE.findall]. *)
Theorem URL_RE_findall_lone_url (l run : string) :
  eqb_ci l "http://" = true \/ eqb_ci l "https://" = true ->
  run <> "" ->
  all_chars is_url_char run = true ->
  URL_RE_findall (l ++ run) = [l ++ run].
Proof.
  intros Hl Hne Hc.
  assert (Hat : match_url_at (l ++ run) = Some (l ++ run)).
  { unfold match_url_at. destruct Hl as [Hl|Hl].
    - rewrite (match_url_with_https_none _ _ Hl).
      now apply match_url_with_whole.
    - now rewrite (match_url_with_whole _ _ _ Hl Hne Hc). }
  unfold URL_RE_findall. destruct (l ++ run) as [|c r] eqn:E.
  - destruct l; [|discriminate]. now destruct run.
  - cbn [findall_from]. rewrite Hat. f_equal.
    apply findall_from_skip_all. cbn [String.length]. lia.
Qed.

Lemma URL_RE_findall_lone_url_witness :
  URL_RE_findall ("https://" ++ "checkout.stripe.com/c/pay_1?x=1")
  = ["https://" ++ "checkout.stripe.com/c/pay_1?x=1"].
Proof.
  apply URL_RE_findall_lone_url.
  - right. reflexivity.
  - discriminate.
  - reflexivity.
Defined.

(** ** The scan of the parsed HAR document *)

Section Emits.

Variable P : string -> Prop.

Lemma bind_emits {A B} (m : Scan A) (k : A -> Scan B) :
  Forall P (fst m) -> (forall a, Forall P (fst (k a))) ->
  Forall P (fst (bind m k)).
Proof.
  intros Hm Hk. destruct m as [us [e|a]]; [exact Hm|]. unfold bind.
  specialize (Hk a). destruct (k a) as [us' r]. cbn [fst] in *.
  apply Forall_app. now split.
Qed.

Lemma for_each_emits {A} (body : A -> Scan unit) (l : list A) :
  (forall x, Forall P (fst (body x))) -> Forall P (fst (for_each body l)).
Proof.
  intros Hb. induction l as [|x l IH]; [constructor|].
  cbn [for_each]. apply bind_emits; auto.
Qed.

Lemma py_get_emits v key d : Forall P (fst (py_get v key d)).
Proof. destruct v; constructor. Qed.

Lemma py_iter_emits v : Forall P (fst (py_iter v)).
Proof. destruct v; constructor. Qed.

Lemma py_str_emits v : Forall P (fst (py_str v)).
Proof. destruct v; constructor. Qed.

End Emits.

Lemma scan_header_emits (hdr : json) :
  Forall (fun u => PAYMENT_RE_search u = true) (fst (scan_header hdr)).
Proof.
  destruct hdr; try constructor. unfold scan_header.
  apply bind_emits; [apply py_get_emits|]. intros v.
  apply bind_emits; [apply py_str_emits|]. intros s. cbn [append_all fst].
  apply Forall_forall. intros u Hu. now apply filter_In in Hu.
Qed.

Lemma scan_headers_emits (entry : json) (side : string) :
  Forall (fun u => PAYMENT_RE_search u = true) (fst (scan_headers entry side)).
Proof.
  unfold scan_headers.
  apply bind_emits; [apply py_get_emits|]. intros part.
  apply bind_emits; [apply py_get_emits|]. intros hs.
  apply bind_emits; [apply py_iter_emits|]. intros items.
  apply for_each_emits, scan_header_emits.
Qed.

Lemma scan_entry_emits (entry : json) :
  Forall (fun u => PAYMENT_RE_search u = true) (fst (scan_entry entry)).
Proof.
  unfold scan_entry.
  apply bind_emits; [apply py_get_emits|]. intros req.
  apply bind_emits; [apply py_get_emits|]. intros url.
  apply bind_emits; [apply py_str_emits|]. intros u.
  apply bind_emits.
  - cbn [append_all fst]. destruct (PAYMENT_RE_search u) eqn:E;
      repeat constructor. exact E.
  - intros _. apply bind_emits; [apply scan_headers_emits|].
    intros _. apply scan_headers_emits.
Qed.

(** X18: whatever the parsed document is, every URL that the scan
    appends to [matched_urls] is matched by [PAYMENT_RE], also when the
    scan ends in an exception. *)
Theorem scan_json_appends_matches (har : json) :
  Forall (fun u => PAYMENT_RE_search u = true) (fst (scan_json har)).
Proof.
  unfold scan_json.
  apply bind_emits; [apply py_get_emits|]. intros log.
  apply bind_emits; [apply py_get_emits|]. intros entries.
  apply bind_emits; [apply py_iter_emits|]. intros items.
  apply for_each_emits, scan_entry_emits.
Qed.

Lemma for_each_all_fine {A} (body : A -> Scan unit) (f : A -> list string)
    (l : list A) :
  (forall x, body x = (f x, inr tt)) ->
  for_each body l = (flat_map f l, inr tt).
Proof.
  intros Hb. induction l as [|x l IH]; [reflexivity|].
  cbn [for_each flat_map]. now rewrite Hb, IH.
Qed.

Lemma scan_header_json (h : string * string) :
  scan_header (header_json h)
  = (filter PAYMENT_RE_search (URL_RE_findall (snd h)), inr tt).
Proof. reflexivity. Qed.

Lemma for_each_map {A B} (body : B -> Scan unit) (g : A -> B) (l : list A) :
  for_each body (map g l) = for_each (fun x => body (g x)) l.
Proof.
  induction l as [|x l IH]; [reflexivity|]. cbn [map for_each].
  now rewrite IH.
Qed.

Lemma bind_ret_l {A B} (a : A) (k : A -> Scan B) : bind (ret a) k = k a.
Proof. unfold bind, ret. now destruct (k a). Qed.

Lemma bind_py_get_obj {B} members key d (k : json -> Scan B) :
  bind (py_get (JObj members) key d) k
  = k (match lookup key members with Some x => x | None => d end).
Proof. apply bind_ret_l. Qed.

Lemma bind_py_iter_arr {B} items (k : list json -> Scan B) :
  bind (py_iter (JArr items)) k = k items.
Proof. apply bind_ret_l. Qed.

Lemma bind_py_str {B} s (k : string -> Scan B) :
  bind (py_str (JStr s)) k = k s.
Proof. apply bind_ret_l. Qed.

(** Looks a key up in a dict that is written out. *)
Ltac lookup_key := lazy [lookup String.eqb Ascii.eqb Bool.eqb andb].

Lemma scan_headers_json (e : HarEntry) :
  scan_headers (entry_json e) "request"
  = (header_matches (request_headers e), inr tt) /\
  scan_headers (entry_json e) "response"
  = (header_matches (response_headers e), inr tt).
Proof.
  unfold scan_headers, entry_json. split.
  - rewrite bind_py_get_obj. lookup_key.
    rewrite bind_py_get_obj. lookup_key.
    rewrite bind_py_iter_arr, for_each_map.
    apply (for_each_all_fine _ _ _ scan_header_json).
  - rewrite bind_py_get_obj. lookup_key.
    rewrite bind_py_get_obj. lookup_key.
    rewrite bind_py_iter_arr, for_each_map.
    apply (for_each_all_fine _ _ _ scan_header_json).
Qed.

Lemma scan_entry_json (e : HarEntry) :
  scan_entry (entry_json e) = (entry_matches e, inr tt).
Proof.
  destruct (scan_headers_json e) as [Hreq Hresp].
  unfold scan_entry. rewrite Hreq, Hresp. unfold entry_json.
  rewrite bind_py_get_obj. lookup_key.
  rewrite bind_py_get_obj. lookup_key.
  rewrite bind_py_str. reflexivity.
Qed.

(** X19: on a HAR document of the usual shape the scan raises nothing
    and appends, entry by entry, the request URL if [PAYMENT_RE] matches
    it, then the matched URLs found in the values of the request headers,
    then those found in the values of the response headers. *)
Theorem scan_json_well_formed (entries : list HarEntry) :
  scan_json (har_json entries) = (flat_map entry_matches entries, inr tt).
Proof.
  unfold scan_json, har_json.
  rewrite bind_py_get_obj. lookup_key.
  rewrite bind_py_get_obj. lookup_key.
  rewrite bind_py_iter_arr, for_each_map.
  apply (for_each_all_fine _ _ _ scan_entry_json).
Qed.

Lemma for_each_app {A} (body : A -> Scan unit) (l1 l2 : list A) :
  for_each body (l1 ++ l2)
  = bind (for_each body l1) (fun _ => for_each body l2).
Proof.
  induction l1 as [|x l1 IH]; cbn [app for_each].
  - unfold bind, ret. now destruct (for_each body l2).
  - rewrite IH. destruct (body x) as [us [e|[]]]; [reflexivity|].
    cbn [bind]. destruct (for_each body l1) as [us1 [e|[]]].
    + reflexivity.
    + cbn [bind]. destruct (for_each body l2) as [us2 r].
      now rewrite app_assoc.
Qed.

(** X20: when the scan of an entry raises, the URLs appended for the
    entries before it, and by the failing entry up to the exception, are
    kept; the entries after it are not looked at. *)
Theorem scan_json_stops_at_failure (members log : list (string * json))
    (before after : list json) (bad : json) (us1 us : list string)
    (e : PyExc) :
  lookup "log" members = Some (JObj log) ->
  lookup "entries" log = Some (JArr (before ++ bad :: after)) ->
  for_each scan_entry before = (us1, inr tt) ->
  scan_entry bad = (us, inl e) ->
  scan_json (JObj members) = ((us1 ++ us)%list, inl e).
Proof.
  intros Hlog Hentries Hbefore Hbad. unfold scan_json.
  cbn [py_get]. rewrite Hlog. cbn [bind ret py_get]. rewrite Hentries.
  cbn [bind ret py_iter app].
  rewrite for_each_app, Hbefore. cbn [bind for_each]. rewrite Hbad.
  reflexivity.
Qed.

Lemma scan_json_stops_at_failure_witness :
  scan_json
    (JObj [("log",
            JObj [("entries",
                   JArr ([entry_json
                            {| entry_url := "https://js.stripe.com/v3";
                               request_headers := [];
                               response_headers := [] |}]
                         ++ JStr "truncated"
                         :: [entry_json
                               {| entry_url := "https://www.paypal.com/sdk";
                                  request_headers := [];
                                  response_headers := [] |}]))])])
  = ((["https://js.stripe.com/v3"] ++ [])%list, inl AttributeError).
Proof.
  eapply scan_json_stops_at_failure; reflexivity.
Defined.

(** X21: keys that are missing are passed over in silence: a document
    without "log", a log without "entries" and an entry without "request"
    and "response" append nothing and raise nothing; a document that is
    no dict raises before anything is appended. *)
Theorem scan_json_missing_keys :
  (forall members,
     lookup "log" members = None ->
     scan_json (JObj members) = ([], inr tt)) /\
  (forall members log,
     lookup "log" members = Some (JObj log) ->
     lookup "entries" log = None ->
     scan_json (JObj members) = ([], inr tt)) /\
  (forall members,
     lookup "request" members = None ->
     lookup "response" members = None ->
     scan_entry (JObj members) = ([], inr tt)) /\
  (forall har,
     (forall members, har <> JObj members) ->
     scan_json har = ([], inl AttributeError)).
Proof.
  repeat split.
  - intros members H. unfold scan_json. cbn [py_get]. now rewrite H.
  - intros members log H1 H2. unfold scan_json. cbn [py_get].
    rewrite H1. cbn [bind ret py_get]. now rewrite H2.
  - intros members H1 H2. unfold scan_entry, scan_headers. cbn [py_get].
    now rewrite H1, H2.
  - intros har H. destruct har; try reflexivity. now elim (H members).
Qed.

Lemma scan_json_missing_keys_witness :
  scan_json (JObj [("creator", JStr "pmtproc")]) = ([], inr tt).
Proof. apply (proj1 scan_json_missing_keys). reflexivity. Defined.

Lemma unique_urls_in (matched : list string) (u : string) :
  In u (unique_urls matched)
  <-> In u matched /\ startswith u "http" = true.
Proof.
  unfold unique_urls, set_of. split.
  - intros H. apply (Permutation_in _ (sorted_perm _ _)) in H.
    apply (proj1 (distinct_in _ _)) in H.
    now apply (proj1 (filter_In _ _ _)) in H.
  - intros H. apply (Permutation_in _ (Permutation_sym (sorted_perm _ _))).
    apply (proj2 (distinct_in _ _)). now apply (proj2 (filter_In _ _ _)).
Qed.

(** X22: when the URLs that the scan adds come from a parsed HAR
    document, every URL that the report lists is matched by [PAYMENT_RE]
    and begins with "http". *)
Theorem report_lists_only_matches (w : World) (har : json) (u : string) :
  har_scan_urls w = fst (scan_json har) ->
  In u (unique_urls (final_matched w)) ->
  PAYMENT_RE_search u = true /\ startswith u "http" = true.
Proof.
  intros Hscan Hu. apply unique_urls_in in Hu as [Hu Hs].
  split; [|exact Hs]. unfold final_matched in Hu.
  apply in_app_or in Hu as [Hu|Hu].
  - now apply filter_In in Hu.
  - destruct (har_exists w); [|contradiction].
    rewrite Hscan in Hu.
    pose proof (scan_json_appends_matches har) as Hall.
    rewrite Forall_forall in Hall. now apply Hall.
Qed.

Lemma report_lists_only_matches_witness :
  PAYMENT_RE_search "https://js.stripe.com/v3" = true /\
  startswith "https://js.stripe.com/v3" "http" = true.
Proof.
  apply (report_lists_only_matches world_stripe_checkout
           (har_json [ {| entry_url := "https://js.stripe.com/v3";
                          request_headers := [];
                          response_headers := [] |} ])).
  - reflexivity.
  - simpl. now left.
Defined.

(** ** kill_stale_chromium *)

Example splitlines_of_a_listing :
  splitlines "  PID CMD
    1 /sbin/init
" = ["  PID CMD"; "    1 /sbin/init"].
Proof. reflexivity. Qed.

Example py_int_examples :
  py_int "4711" = Some 4711%Z /\ py_int "1_000" = Some 1000%Z /\
  py_int "-12" = Some (-12)%Z /\ py_int "PID" = None /\ py_int "1__0" = None.
Proof. repeat split; reflexivity. Qed.

Example fallback_kills_a_literal_match :
  kill_stale_chromium
    {| pkill_found := fun _ => false;
       ps_output := fun _ =>
         Some "  PID CMD
 4711 sh -c grep chrome.*--remote-debugging-pipe
 4712 /opt/chrome --remote-debugging-pipe
";
       kill_uncaught := fun _ => false |}
  = ([Pkill "chrome.*--remote-debugging-pipe"; Ps; Kill 4711%Z;
      Pkill "playwright.*chromium"; Ps], None).
Proof. reflexivity. Qed.

Lemma prefix_append (p s : string) :
  String.prefix p s = true <-> exists b, s = p ++ b.
Proof.
  revert s. induction p as [|a p IH]; intros s.
  - split; [intros _; now exists s | intros _; now destruct s].
  - destruct s as [|c s].
    + split; [discriminate | intros [b Hb]; discriminate].
    + rewrite prefix_cons. destruct (ascii_dec a c) as [<-|N].
      * rewrite IH. split; intros [b Hb]; exists b.
        -- now rewrite Hb.
        -- now injection Hb.
      * split; [discriminate|]. intros [b Hb]. injection Hb as Hc _.
        congruence.
Qed.

(** [contains] finds the text exactly where it stands in the string. *)
Lemma contains_iff (pat s : string) :
  contains pat s = true <-> exists a b, s = a ++ pat ++ b.
Proof.
  split.
  - induction s as [|c s IH]; cbn [contains].
    + destruct (String.prefix pat "") eqn:E; [|discriminate].
      intros _. apply prefix_append in E as [b Hb]. now exists "", b.
    + destruct (String.prefix pat (String c s)) eqn:E.
      * intros _. apply prefix_append in E as [b Hb]. now exists "", b.
      * intros H. destruct (IH H) as (a & b & ->).
        now exists (String c a), b.
  - intros (a & b & ->). induction a as [|c a IH].
    + cbn [append].
      assert (E : String.prefix pat (pat ++ b) = true)
        by (apply prefix_append; now exists b).
      destruct (pat ++ b); cbn [contains]; now rewrite E.
    + cbn [append contains]. rewrite IH.
      now destruct (String.prefix pat _).
Qed.









Lemma kill_lines_provenance (os : Os) (pat : string) (lines : list string)
    (pid : Z) :
  In (Kill pid) (fst (kill_lines os pat lines)) ->
  exists line tok,
    In line lines /\ contains pat line = true /\
    first_token line = Some tok /\ py_int tok = Some pid.
Proof.
  induction lines as [|line r IH]; [contradiction|]. cbn [kill_lines].
  assert (Hr : In (Kill pid) (fst (kill_lines os pat r)) ->
               exists line' tok,
                 In line' (line :: r) /\ contains pat line' = true /\
                 first_token line' = Some tok /\ py_int tok = Some pid).
  { intros H. destruct (IH H) as (l & tok & Hl & Hrest).
    exists l, tok. split; [now right | exact Hrest]. }
  destruct (contains pat line) eqn:Hc; [|exact Hr].
  destruct (first_token line) as [tok|] eqn:Ht; [|contradiction].
  destruct (py_int tok) as [pid'|] eqn:Hi; [|exact Hr].
  assert (Hhere : Kill pid' = Kill pid ->
                  exists line' tok',
                    In line' (line :: r) /\ contains pat line' = true /\
                    first_token line' = Some tok' /\ py_int tok' = Some pid).
  { intros E. injection E as <-. exists line, tok.
    split; [now left | auto]. }
  destruct (kill_uncaught os pid').
  - intros [E|[]]. now apply Hhere.
  - destruct (kill_lines os pat r) as [acts e]. cbn [fst] in *.
    intros [E|H]; [now apply Hhere | now apply Hr].
Qed.

(** X24: a process is signalled only where [pkill] is missing, and then
    only the one whose number opens a line of the [ps] listing that holds
    the pattern as it is written, the characters '.' and '*' included:
    in the listing the pattern is a plain text, not a regular
    expression. *)
Theorem kill_stale_chromium_provenance (os : Os) (pid : Z) :
  In (Kill pid) (fst (kill_stale_chromium os)) ->
  exists pat procs line tok,
    In pat REAP_PATTERNS /\ pkill_found os pat = false /\
    ps_output os pat = Some procs /\ In line (splitlines procs) /\
    (exists a b, line = a ++ pat ++ b) /\
    first_token line = Some tok /\ py_int tok = Some pid.
Proof.
  unfold kill_stale_chromium.
  assert (G : forall pats,
             In (Kill pid) (fst (reap_patterns os pats)) ->
             exists pat procs line tok,
               In pat pats /\ pkill_found os pat = false /\
               ps_output os pat = Some procs /\ In line (splitlines procs) /\
               (exists a b, line = a ++ pat ++ b) /\
               first_token line = Some tok /\ py_int tok = Some pid).
  { induction pats as [|pat r IH]; [contradiction|]. cbn [reap_patterns].
    assert (Hhere : In (Kill pid) (fst (reap_pattern os pat)) ->
                    exists pat' procs line tok,
                      In pat' (pat :: r) /\ pkill_found os pat' = false /\
                      ps_output os pat' = Some procs /\
                      In line (splitlines procs) /\
                      (exists a b, line = a ++ pat' ++ b) /\
                      first_token line = Some tok /\ py_int tok = Some pid).
    { unfold reap_pattern. destruct (pkill_found os pat) eqn:Hf.
      - intros [E|[]]. discriminate.
      - destruct (ps_output os pat) as [procs|] eqn:Hps.
        + pose proof (kill_lines_provenance os pat (splitlines procs) pid)
            as Hk.
          destruct (kill_lines os pat (splitlines procs)) as [acts e].
          cbn [fst] in *. intros [E|[E|H]]; try discriminate.
          destruct (Hk H) as (line & tok & Hl & Hc & Ht & Hi).
          exists pat, procs, line, tok. apply contains_iff in Hc.
          repeat split; auto. now left.
        + intros [E|[E|[]]]; discriminate. }
    destruct (reap_pattern os pat) as [acts [e|]]; [exact Hhere|].
    destruct (reap_patterns os r) as [acts' e'] eqn:Er. cbn [fst] in *.
    intros H. apply in_app_or in H as [H|H]; [now apply Hhere|].
    destruct (IH H) as (pat' & procs & line & tok & Hin & Hrest).
    exists pat', procs, line, tok. split; [now right | exact Hrest]. }
  apply G.
Qed.

Lemma kill_stale_chromium_provenance_witness :
  exists pat procs line tok,
    In pat REAP_PATTERNS /\
    pkill_found (mkOs (fun _ => false)
                      (fun _ => Some "77 playwright.*chromium")
                      (fun _ => false)) pat = false /\
    ps_output (mkOs (fun _ => false)
                    (fun _ => Some "77 playwright.*chromium")
                    (fun _ => false)) pat = Some procs /\
    In line (splitlines procs) /\
    (exists a b, line = a ++ pat ++ b) /\
    first_token line = Some tok /\ py_int tok = Some 77%Z.
Proof.
  apply (kill_stale_chromium_provenance
           (mkOs (fun _ => false) (fun _ => Some "77 playwright.*chromium")
                 (fun _ => false)) 77%Z).
  simpl. tauto.
Defined.




(** ** How a run ends *)


